(** * wordguess: the dictionary loader and the guess scorer of [wordguess.py]

    A shallow embedding of the two parts of [src/wordguess.py] that carry
    the game's logic, the dictionary pass of [WordGuess.__init__] and the
    scoring block of [WordGuess._play_round], together with the properties
    the specification states about them.

    Conventions of the embedding:
    - a Python [str] is the list of its code points ([Z]); a one-character
      string is a code point;
    - a Python [int] is a [Z]; [range(n)] is [seq 0 (Z.to_nat n)];
    - a Python [list] indexed and assigned by position is a Rocq list read
      with [!!] and written with [<[ i := x ]>], the [IndexError] of an
      access out of range written out;
    - a [set] is a [gset], a [dict] is a [gmap];
    - an exception is the left injection of a sum. *)

From Stdlib Require Import ZArith Lia.
From Stdlib Require Import Strings.String Strings.Ascii Strings.Byte.
From stdpp Require Import base decidable option list numbers gmap.

Local Open Scope Z_scope.

#[local] Set Warnings "-clear-no-such-hyp".

(** ** Python values *)

(** A character is its code point, [ord] and [chr] are the identity. *)
Definition char := Z.
Definition pystr := list char.
Definition pybytes := list byte.

(** ASCII literals: the code points of a Rocq string literal. *)
Fixpoint py (s : string) : pystr :=
  match s with
  | EmptyString => []
  | String a r => Z.of_N (N_of_ascii a) :: py r
  end.

(** The exceptions the embedded code can raise. *)
Inductive exn : Set :=
  | UnboundLocalError
  | IndexError
  | KeyError
  | ValueError.

Definition result (A : Type) : Type := exn + A.

Definition ret {A} (a : A) : result A := inr a.
Definition raise {A} (e : exn) : result A := inl e.
Definition bind {A B} (m : result A) (k : A -> result B) : result B :=
  match m with
  | inl e => inl e
  | inr a => k a
  end.

Notation "'do' x <- m ; k" := (bind m (fun x => k))
  (at level 10, x name, m at level 100, k at level 200).

(** [l[i]] for [0 <= i]: [IndexError] past the end. *)
Definition getitem {A} (l : list A) (i : nat) : result A :=
  match l !! i with
  | Some x => ret x
  | None => raise IndexError
  end.

(** [l[i] = x] for [0 <= i]: [IndexError] past the end. *)
Definition setitem {A} (l : list A) (i : nat) (x : A) : result (list A) :=
  if decide (i < length l)%nat then ret (<[ i := x ]> l) else raise IndexError.

(** [d[k]]: [KeyError] for a key the dict does not hold. *)
Definition dict_getitem {K V} `{Countable K} (d : gmap K V) (k : K)
  : result V :=
  match d !! k with
  | Some v => ret v
  | None => raise KeyError
  end.

(** [for i in items: body], the loop's variables threaded through [body],
    stopping at the first exception. *)
Fixpoint for_each {I S} (body : I -> S -> result S) (items : list I) (s : S)
  : result S :=
  match items with
  | [] => ret s
  | i :: rest => do s' <- body i s ; for_each body rest s'
  end.

(** [range(n)] *)
Definition range (n : Z) : list nat := seq 0 (Z.to_nat n).

(** [l.index(x)]: the first position holding [x], [None] for the
    [ValueError] the callers catch. *)
Fixpoint list_index {A} `{EqDecision A} (x : A) (l : list A) : option nat :=
  match l with
  | [] => None
  | y :: r => if decide (y = x) then Some 0%nat else S <$> list_index x r
  end.

(** ** Colour pairs (class constants of [WordGuess]) *)

Definition _EMPTY_PAIR   : Z := 1.
Definition _BOARD_PAIR   : Z := 2.
Definition _GUESS_PAIR   : Z := 3.
Definition _MISS_PAIR    : Z := 4.
Definition _PARTIAL_PAIR : Z := 5.
Definition _EXACT_PAIR   : Z := 6.
Definition _MESSAGE_PAIR : Z := 7.

(** ** The scorer: [_play_round], from [letters = list(word)] to the end of
    the partial-match loop *)

Module Scorer.

(** The two lists the block mutates. A blanked letter is [None]. *)
Record scoring := Scoring {
  letters : list (option char);
  pairs : list Z
}.

(** Body of the first loop ("First look for exact matches"). *)
Definition exact_step (word guess : pystr) (i : nat) (s : scoring)
  : result scoring :=
  do g <- getitem guess i ;
  do w <- getitem word i ;
  if decide (g = w) then
    do ps <- setitem (pairs s) i _EXACT_PAIR ;
    do ls <- setitem (letters s) i None ;
    ret (Scoring ls ps)
  else ret s.

(** Body of the second loop ("Now look for partial matches"). *)
Definition partial_step (guess : pystr) (i : nat) (s : scoring)
  : result scoring :=
  do p <- getitem (pairs s) i ;
  if decide (p = _EXACT_PAIR) then ret s
  else
    do g <- getitem guess i ;
    match list_index (Some g) (letters s) with
    | Some index =>
        do ps <- setitem (pairs s) i _PARTIAL_PAIR ;
        do ls <- setitem (letters s) index None ;
        ret (Scoring ls ps)
    | None => ret s
    end.

(** [letters = list(word)] and [pairs = [self._MISS_PAIR] * self._length]. *)
Definition start (length : Z) (word : pystr) : scoring :=
  Scoring (Some <$> word) (replicate (Z.to_nat length) _MISS_PAIR).

(** The whole block: [self._length], the secret [word] and the [guess]
    buffer go in, the list [pairs] comes out. *)
Definition score (length : Z) (word guess : pystr) : result (list Z) :=
  do s1 <- for_each (exact_step word guess) (range length)
                    (start length word) ;
  do s2 <- for_each (partial_step guess) (range length) s1 ;
  ret (pairs s2).

End Scorer.

(** ** The scorer as the specification words it (section 4.2)

    A second definition, written from the specification's two passes and not
    from the code, to compare with [Scorer.score]. *)

Module ScorerSpec.

(** The three classifications of a position. *)
Inductive mark : Set := Miss | Partial | Exact.

#[global] Instance mark_eq_dec : EqDecision mark.
Proof. solve_decision. Defined.

(** The colour pair the game paints a classification with. *)
Definition pair_of (m : mark) : Z :=
  match m with
  | Miss => _MISS_PAIR
  | Partial => _PARTIAL_PAIR
  | Exact => _EXACT_PAIR
  end.

(** Pass 1, the marks: position [i] is Exact when [guess[i] == secret[i]],
    every other position defaults to Miss. *)
Definition pass1_marks (secret guess : pystr) : list mark :=
  zip_with (fun s g => if decide (g = s) then Exact else Miss) secret guess.

(** Pass 1, the working copy of the secret's letters: the slot of an exact
    match is nulled. *)
Definition pass1_working (secret guess : pystr) : list (option char) :=
  zip_with (fun s g => if decide (g = s) then None else Some s) secret guess.

(** Pass 2, taken left to right over the guess letters and their pass-1
    marks: a position marked Exact is left alone; any other position whose
    letter is found in the remaining working copy is marked Partial and the
    first slot holding the letter is nulled; otherwise the mark is left as
    it is. *)
Fixpoint pass2 (working : list (option char)) (todo : list (char * mark))
  : list mark :=
  match todo with
  | [] => []
  | (g, m) :: rest =>
      if decide (m = Exact) then m :: pass2 working rest
      else match list_index (Some g) working with
           | Some j => Partial :: pass2 (<[ j := None ]> working) rest
           | None => m :: pass2 working rest
           end
  end.

(** The working copy pass 2 ends with. *)
Fixpoint pass2_working (working : list (option char))
  (todo : list (char * mark)) : list (option char) :=
  match todo with
  | [] => working
  | (g, m) :: rest =>
      if decide (m = Exact) then pass2_working working rest
      else match list_index (Some g) working with
           | Some j => pass2_working (<[ j := None ]> working) rest
           | None => pass2_working working rest
           end
  end.

Definition Score (secret guess : pystr) : list mark :=
  pass2 (pass1_working secret guess) (zip guess (pass1_marks secret guess)).

(** The lists of the scoring block as the specification has them after
    pass 1 and after pass 2. *)
Definition after_pass1 (secret guess : pystr) : Scorer.scoring :=
  Scorer.Scoring (pass1_working secret guess)
                 (pair_of <$> pass1_marks secret guess).

Definition after_pass2 (secret guess : pystr) : Scorer.scoring :=
  Scorer.Scoring (pass2_working (pass1_working secret guess)
                                (zip guess (pass1_marks secret guess)))
                 (pair_of <$> Score secret guess).

End ScorerSpec.

(** How many positions of [guess] hold the letter [c] and are painted with
    the exact or the partial pair in [pairs]; how often [c] occurs in a
    word. *)
Definition credited (c : char) (guess : pystr) (pairs : list Z) : nat :=
  length (filter (fun gp => gp.1 = c /\
                            (gp.2 = _EXACT_PAIR \/ gp.2 = _PARTIAL_PAIR))
                 (zip guess pairs)).

Definition occurrences {A} `{EqDecision A} (x : A) (l : list A) : nat :=
  length (filter (fun y => y = x) l).

(** ** The info letters: [_play_round], the loop "Now paint the board and
    the info section", for the dict [info_letters] of the round *)

Module Info.

(** The test that guards [info_letters[guess[i]] = pairs[i]]. *)
Definition improves (info_letters : gmap char Z) (g : char) (p : Z) : bool :=
  bool_decide (p = _EXACT_PAIR)
  || (bool_decide (p = _PARTIAL_PAIR)
      && bool_decide (info_letters !! g <> Some _EXACT_PAIR))
  || (bool_decide (p = _MISS_PAIR)
      && bool_decide (info_letters !! g = None)).

(** The guarded assignment. *)
Definition remember (info_letters : gmap char Z) (g : char) (p : Z)
  : gmap char Z :=
  if improves info_letters g p then <[ g := p ]> info_letters
  else info_letters.

(** Body of the paint loop. The calls that only draw are left out; the
    lookup [info_letters[guess[i]]] passed to [_set_info_letter] is kept
    for its [KeyError]. *)
Definition paint_step (guess : pystr) (pairs : list Z) (i : nat)
  (info_letters : gmap char Z) : result (gmap char Z) :=
  do g <- getitem guess i ;
  do p <- getitem pairs i ;
  let info_letters := remember info_letters g p in
  do shown <- dict_getitem info_letters g ;
  ret info_letters.

(** One submitted guess of a known word: scored, then painted. *)
Definition scored_guess (length : Z) (word guess : pystr)
  (info_letters : gmap char Z) : result (gmap char Z) :=
  do pairs <- Scorer.score length word guess ;
  for_each (paint_step guess pairs) (range length) info_letters.

(** [info_letters] after the guesses scored so far in a round, from the
    [dict()] the round starts with. *)
Definition round_info (length : Z) (word : pystr) (guesses : list pystr)
  : result (gmap char Z) :=
  for_each (scored_guess length word) guesses ∅.

(** The precedence of a remembered status: exact over partial over miss
    over unknown. *)
Definition rank (status : option Z) : nat :=
  match status with
  | None => 0
  | Some p =>
      if decide (p = _EXACT_PAIR) then 3
      else if decide (p = _PARTIAL_PAIR) then 2
      else if decide (p = _MISS_PAIR) then 1
      else 0
  end.

(** The best rank a scored guess gives the letter [c]. *)
Fixpoint best (c : char) (scored : list (char * Z)) : nat :=
  match scored with
  | [] => 0
  | (g, p) :: rest =>
      if decide (g = c) then rank (Some p) `max` best c rest
      else best c rest
  end.

(** One of the three pairs a position is scored with. *)
Definition is_mark (p : Z) : Prop :=
  p = _MISS_PAIR \/ p = _PARTIAL_PAIR \/ p = _EXACT_PAIR.

(** Every status the dict holds is one of the three marks. *)
Definition marks_only (info_letters : gmap char Z) : Prop :=
  forall c p, info_letters !! c = Some p -> is_mark p.

(** The guarded assignment applied along a scored guess. *)
Definition painted (info_letters : gmap char Z) (scored : list (char * Z))
  : gmap char Z :=
  foldl (fun info gp => remember info gp.1 gp.2) info_letters scored.

End Info.

(** ** The dictionary loader: [WordGuess.__init__] *)

Module Loader.

(** [_OFFENSIVE_WORDS], as the source spells it (rotated by 13). *)
Definition _OFFENSIVE_WORDS : list pystr :=
  py <$> [
    "NANY"; "NAHF"; "NEFR"; "NFF"; "NFFUNG"; "OYNPXONYY"; "OYNPXYVFG";
    "OVGPU"; "OYBJWBO"; "OBBOF"; "OHTTRE"; "PUVAX"; "PUVAXL"; "PYVG";
    "PYVGBEVF"; "PYVGF"; "PBPX"; "PBBA"; "PBPXFHPXRE"; "PENC"; "PHZ";
    "PHZZVAT"; "PHZF"; "PHAAVYVATHF"; "PHAG"; "PHAGRQ"; "PHAGF"; "QVPX";
    "QVPXF"; "QBTTVAT"; "QBAT"; "QBBPU"; "RWNPHYNGR"; "RWNPHYNGRQ";
    "RWNPHYNGRF"; "RWNPHYNGVAT"; "RWNPHYNGVATF"; "RWNPHYNGVBA"; "SNT";
    "SNTTBG"; "SRYPU"; "SRYPUVAT"; "SRYYNGR"; "SRYYNGVB"; "SVFGVAT";
    "SHPX"; "SHPXRQ"; "SHPXRE"; "SHPXVAT"; "SHPXF"; "TNATONAT";
    "TNLYBEQ"; "TLC"; "TLCCRQ"; "UBZB"; "UBEAL"; "VAPRFG"; "WNC";
    "WVMM"; "ZNFGHEONGR"; "ANMV"; "ARTEB"; "ARTEBF"; "AVTTRE"; "AVCCYR";
    "AVCCYRF"; "AVC"; "BETNFZ"; "BETNFZF"; "BETL"; "CNRQB"; "CRAVF";
    "CVFF"; "CBBS"; "CBEA"; "CBEAB"; "CEVPX"; "CEVPXF"; "CHOR"; "CHORF";
    "CHFFL"; "CHFFVRF"; "DHRRE"; "DHRREF"; "DHVZ"; "ENCR"; "ENCRF";
    "ENCVAT"; "ENCVFG"; "FPEBGHZ"; "FRZRA"; "FRK"; "FRKL"; "FUNT";
    "FUNTTVAT"; "FUVG"; "FUVGF"; "FUVGGL"; "FUNG"; "FYNIR"; "FYHG";
    "FYHGF"; "FBQBZVMR"; "FBQBZBL"; "FCHAX"; "GVGF"; "GVGGVRF"; "GVGGL";
    "GBCYRFF"; "GENAAL"; "GJNG"; "HCFXVEG"; "INTVAN"; "IHYIN"; "IVETVA";
    "JNAX"
  ]%string.

(** [s[-k:]] and [s[:-k]] for [k >= 1]: a string shorter than [k] gives the
    whole string and the empty string. *)
Definition last_chars (k : nat) (s : pystr) : pystr := drop (length s - k) s.
Definition drop_last (k : nat) (s : pystr) : pystr := take (length s - k) s.

(** ['A' <= c <= 'Z'] *)
Definition ascii_capital (c : char) : bool :=
  bool_decide (65 <= c) && bool_decide (c <= 90).

(** [len(word) > 0 and 'A' <= word[0] <= 'Z'] *)
Definition capitalised (word : pystr) : bool :=
  match word with
  | [] => false
  | c :: _ => ascii_capital c
  end.

(** The attributes and the local the dictionary pass assigns. [word] is
    [None] as long as the local name [word] is unbound. *)
Record loader := Loader {
  word : option pystr;
  _words : list pystr;
  _all_words : gset pystr;
  _letters : gset char
}.

(** What running the program comes to: the exception that ended it before
    [game.init()], or the game that [game.init()] and [game.play()] are
    called on. *)
Inductive outcome :=
  | Uncaught (e : exn)
  | Played (game : loader).

Section builtins.

(** The text methods of the Python runtime that the loader calls. Their
    Unicode tables are no part of the repository; the loader is embedded
    over any four such functions. [bytes_decode] is [None] for a
    [UnicodeDecodeError]. *)
Variable bytes_decode : pybytes -> option pystr.
Variable str_strip : pystr -> pystr.
Variable str_upper : pystr -> pystr.
Variable str_isalpha : pystr -> bool.

(** [_rot13upper]. Every argument of [chr] lies in 65..90, so [chr] never
    raises. *)
Definition _rot13upper (word : pystr) : pystr :=
  (fun c => (c - 65 + 13) `mod` 26 + 65) <$> str_upper word.

(** The condition of the [if] that guards [self._words.append(word)]. *)
Definition wanted (all_words : gset pystr) (length : Z) (accented : bool)
  (word : pystr) : bool :=
  bool_decide (_rot13upper word ∉ _OFFENSIVE_WORDS)
  && str_isalpha word
  && bool_decide (Z.of_nat (List.length word) = length)
  && (accented || forallb ascii_capital word)
  && negb (bool_decide (last_chars 1 word ∈ py <$> ["D"; "R"; "S"; "Y"]%string)
           && bool_decide (drop_last 1 word ∈ all_words))
  && negb (bool_decide
             (last_chars 2 word ∈ py <$> ["ED"; "ER"; "ES"; "LY"]%string)
           && bool_decide (drop_last 2 word ∈ all_words))
  && negb (bool_decide
             (last_chars 3 word ∈ py <$> ["IES"; "IED"; "IER"; "ING"]%string)
           && bool_decide (drop_last 3 word ++ py "Y" ∈ all_words))
  && negb (bool_decide (last_chars 3 word = py "ING")
           && (bool_decide (drop_last 3 word ∈ all_words)
               || bool_decide (drop_last 3 word ++ py "E" ∈ all_words))).

(** Body of [for line in fh.readlines()]. The progress print is left out. *)
Definition load_line (length : Z) (accented : bool) (line : pybytes)
  (self : loader) : result loader :=
  (* try: word = line.decode()  except UnicodeDecodeError: pass *)
  let word0 :=
    match bytes_decode line with
    | Some decoded => Some decoded
    | None => word self
    end in
  (* word = word.strip() *)
  match word0 with
  | None => raise UnboundLocalError
  | Some word0 =>
      let word1 := str_strip word0 in
      let WORD := str_upper word1 in
      let all_words := {[ WORD ]} ∪ _all_words self in
      if capitalised word1 then
        (* continue *)
        ret (Loader (Some word1) (_words self) all_words (_letters self))
      else
        let word2 := WORD in
        if wanted all_words length accented word2 then
          ret (Loader (Some word2) (_words self ++ [word2]) all_words
                      (_letters self ∪ list_to_set word2))
        else
          ret (Loader (Some word2) (_words self) all_words (_letters self))
  end.

(** The attributes before the pass; [word] not yet bound. *)
Definition fresh : loader := Loader None [] ∅ ∅.

(** The pass over the lines of the file. *)
Definition load_pass (length : Z) (accented : bool) (lines : list pybytes)
  : result loader :=
  for_each (load_line length accented) lines fresh.

(** [__init__]: the pass, then the [ValueError] of an empty [self._words].
    [self._sorted_letters], which only the drawing code reads, is left
    out. *)
Definition __init__ (length : Z) (accented : bool) (lines : list pybytes)
  : result loader :=
  do self <- load_pass length accented lines ;
  if decide (List.length (_words self) = 0%nat) then raise ValueError
  else ret self.

(** The script body: [game = WordGuess(...)] stands outside the [try], so
    an exception of [__init__] ends the program before the game loop. *)
Definition main (length : Z) (accented : bool) (lines : list pybytes)
  : outcome :=
  match __init__ length accented lines with
  | inl e => Uncaught e
  | inr game => Played game
  end.

(** [guessed not in self._all_words], for the letters of a full guess
    buffer ([''.join(guess)] is the list of these letters). *)
Definition unknown_word (game : loader) (guess : pystr) : bool :=
  bool_decide (guess ∉ _all_words game).

(** The reading of the inflection rule for a final D, R, S or Y that looks
    the shortened word up in the set of all the words of the file: such a
    word is in no loaded pool. *)
Definition dropped_against_whole_file (length : Z) (accented : bool)
  (lines : list pybytes) : Prop :=
  forall (game : loader) (w : pystr),
    __init__ length accented lines = ret game ->
    last_chars 1 w ∈ py <$> ["D"; "R"; "S"; "Y"]%string ->
    drop_last 1 w ∈ _all_words game ->
    w ∉ _words game.

(** Invariants of the pass: the pool lies in the set of all words; no
    word of the pool rotates into the blocklist; the shortened form of [w]
    has been read and [w] is not in the pool. *)
Definition pool_known (self : loader) : Prop :=
  forall w, w ∈ _words self -> w ∈ _all_words self.

Definition pool_clean (self : loader) : Prop :=
  forall w, w ∈ _words self -> _rot13upper w ∉ _OFFENSIVE_WORDS.

Definition kept_out (w : pystr) (self : loader) : Prop :=
  drop_last 1 w ∈ _all_words self /\ w ∉ _words self.

End builtins.

End Loader.

(** ** The text methods as CPython has them

    [bytes.decode()] (UTF-8, strict) and [str.strip()] in full; [str.upper()]
    and [str.isalpha()] for the code points below U+0100 and the two code
    points above that [upper] maps these to. They serve to run the loader
    on concrete files of such text. *)

Module CPython.

Definition between (lo hi c : Z) : bool := (lo <=? c) && (c <=? hi).

(** A continuation byte. *)
Definition cont (b : Z) : bool := between 0x80 0xBF b.

Fixpoint utf8 (bs : list Z) : option pystr :=
  match bs with
  | [] => Some []
  | b0 :: r0 =>
      if b0 <? 0x80 then cons b0 <$> utf8 r0
      else if between 0xC2 0xDF b0 then
        match r0 with
        | b1 :: r1 =>
            if cont b1
            then cons ((b0 - 0xC0) * 64 + (b1 - 0x80)) <$> utf8 r1
            else None
        | _ => None
        end
      else if between 0xE0 0xEF b0 then
        match r0 with
        | b1 :: b2 :: r2 =>
            if cont b1 && cont b2
               && (negb (b0 =? 0xE0) || (0xA0 <=? b1))
               && (negb (b0 =? 0xED) || (b1 <=? 0x9F))
            then cons ((b0 - 0xE0) * 4096 + (b1 - 0x80) * 64 + (b2 - 0x80))
                   <$> utf8 r2
            else None
        | _ => None
        end
      else if between 0xF0 0xF4 b0 then
        match r0 with
        | b1 :: b2 :: b3 :: r3 =>
            if cont b1 && cont b2 && cont b3
               && (negb (b0 =? 0xF0) || (0x90 <=? b1))
               && (negb (b0 =? 0xF4) || (b1 <=? 0x8F))
            then cons ((b0 - 0xF0) * 262144 + (b1 - 0x80) * 4096
                       + (b2 - 0x80) * 64 + (b3 - 0x80))
                   <$> utf8 r3
            else None
        | _ => None
        end
      else None
  end.

Definition bytes_decode (line : pybytes) : option pystr :=
  utf8 ((fun b => Z.of_N (Byte.to_N b)) <$> line).

(** The code points [str.strip()] removes. *)
Definition isspace (c : char) : bool :=
  between 0x09 0x0D c || between 0x1C 0x20 c
  || (c =? 0x85) || (c =? 0xA0) || (c =? 0x1680)
  || between 0x2000 0x200A c
  || (c =? 0x2028) || (c =? 0x2029) || (c =? 0x202F) || (c =? 0x205F)
  || (c =? 0x3000).

Fixpoint lstrip (s : pystr) : pystr :=
  match s with
  | [] => []
  | c :: r => if isspace c then lstrip r else s
  end.

Definition str_strip (s : pystr) : pystr :=
  reverse (lstrip (reverse (lstrip s))).

Definition upper_char (c : char) : pystr :=
  if between 0x61 0x7A c then [c - 32]
  else if c =? 0xB5 then [0x39C]
  else if c =? 0xDF then [0x53; 0x53]
  else if between 0xE0 0xFE c && negb (c =? 0xF7) then [c - 32]
  else if c =? 0xFF then [0x178]
  else [c].

Definition str_upper (s : pystr) : pystr := s ≫= upper_char.

Definition alpha_char (c : char) : bool :=
  between 0x41 0x5A c || between 0x61 0x7A c
  || (c =? 0xAA) || (c =? 0xB5) || (c =? 0xBA)
  || between 0xC0 0xD6 c || between 0xD8 0xF6 c || between 0xF8 0xFF c
  || (c =? 0x178) || (c =? 0x39C).

Definition str_isalpha (s : pystr) : bool :=
  match s with
  | [] => false
  | _ => forallb alpha_char s
  end.

(** The loader over these. *)
Definition load_pass := Loader.load_pass bytes_decode str_strip str_upper
                          str_isalpha.
Definition __init__ := Loader.__init__ bytes_decode str_strip str_upper
                         str_isalpha.
Definition main := Loader.main bytes_decode str_strip str_upper str_isalpha.

(** A line of an ASCII file: the bytes of the text and the newline. *)
Definition line (text : string) : pybytes :=
  list_byte_of_string text ++ [Byte.x0a].

End CPython.

(** ** Word files the properties are tried on *)

Module Samples.

Import CPython.

Definition loaded (r : result Loader.loader) : Loader.loader :=
  match r with
  | inr game => game
  | inl _ => Loader.fresh
  end.

(** The plural before its singular. *)
Definition cats_cat : list pybytes := [line "cats"; line "cat"].
Definition cats_cat_game : Loader.loader :=
  Eval vm_compute in loaded (__init__ 4 false cats_cat).

(** The singular before its plural. *)
Definition cat : list pybytes := [line "cat"].
Definition cats_tree : list pybytes := [line "cats"; line "tree"].
Definition cat_seen : Loader.loader :=
  Eval vm_compute in loaded (load_pass 4 false cat).
Definition cat_cats_tree_game : Loader.loader :=
  Eval vm_compute in loaded (__init__ 4 false (cat ++ cats_tree)).

(** A first line that is no UTF-8: the byte 0xFF. *)
Definition undecodable : pybytes := [Byte.xff; Byte.x0a].
Definition undecodable_first : list pybytes := [undecodable; line "cat"].

(** The line "élan" in UTF-8, then a line that is no UTF-8. *)
Definition elan : pybytes :=
  [Byte.xc3; Byte.xa9; Byte.x6c; Byte.x61; Byte.x6e; Byte.x0a].
Definition elan_undecodable : list pybytes := [elan; undecodable].

(** A blocklisted word in four casings, then a plain word. *)
Definition casings : list pybytes :=
  [line "anal"; line "Anal"; line "ANAL"; line "aNaL"; line "tree"].
Definition casings_game : Loader.loader :=
  Eval vm_compute in loaded (__init__ 4 false casings).

End Samples.

(** ** A round: [WordGuess._play_round], the keys and the guess buffer *)

Module Round.

Definition _EMPTY : char := 63.
Definition _ESCAPE : Z := 27.
Definition _DEL : Z := 127.

(** [l[i] = x] for any [int] [i]: a negative index counts from the end,
    [IndexError] outside the list. *)
Definition setitem_int {A} (l : list A) (i : Z) (x : A) : result (list A) :=
  let n := Z.of_nat (length l) in
  let j := if decide (i < 0) then i + n else i in
  if decide (0 <= j < n) then ret (<[ Z.to_nat j := x ]> l)
  else raise IndexError.

(** The locals of the round: [position] is [[x, y]]. *)
Record round := Round {
  position : Z * Z;
  guess : pystr;
  info_letters : gmap char Z
}.

(** How a round ends: by [raise QuitException()] or by [return]. *)
Inductive ending :=
  | QuitException
  | Returned (won : bool).

Section play.

(** The text methods of the runtime, and the key codes of [curses]. *)
Variable str_upper : pystr -> pystr.
Variable str_isalpha : pystr -> bool.
Variables KEY_BACKSPACE KEY_DC KEY_ENTER : Z.

(** The attributes of the game and the word to guess. *)
Variables _length _tries : Z.
Variable _letters : gset char.
Variable _all_words : gset pystr.
Variable word : pystr.

(** One turn of the [while] loop for a key that is not [-1]: the round
    ends ([inl]) or goes on with new locals ([inr]). The calls that only
    draw, beep or sleep are left out. A key is what [getch] delivers, a C
    [int], for which [chr] raises nothing but the [ValueError] the loop
    catches. *)
Definition handle_key (key : Z) (st : round) : result (ending + round) :=
  let x := (position st).1 in
  let y := (position st).2 in
  if decide (key = _ESCAPE) then ret (inl QuitException)
  else if decide (key ∈ [KEY_BACKSPACE; KEY_DC; _DEL]) then
    if decide (0 < x) then
      do g <- setitem_int (guess st) (x - 1) _EMPTY ;
      ret (inr (Round (x - 1, y) g (info_letters st)))
    else ret (inr st)
  else if decide (x < _length) then
    (* try: char = chr(key).upper() ... except ValueError: pass *)
    if decide (0 <= key < 0x110000) then
      match str_upper [key] with
      | [c] =>
          if str_isalpha [c] && bool_decide (c ∈ _letters) then
            do g <- setitem_int (guess st) x c ;
            ret (inr (Round (x + 1, y) g (info_letters st)))
          else ret (inr st)
      | _ => ret (inr st)
      end
    else ret (inr st)
  else if decide (key = KEY_ENTER \/ key = 10) then
    (* guessed = ''.join(guess) *)
    if decide (guess st ∉ _all_words) then ret (inr st)
    else
      do pairs <- Scorer.score _length word (guess st) ;
      do info <- for_each (Info.paint_step (guess st) pairs) (range _length)
                          (info_letters st) ;
      if forallb (fun p => bool_decide (p = _EXACT_PAIR)) pairs
      then ret (inl (Returned true))
      else ret (inr (Round (0, y + 1)
                           (replicate (Z.to_nat _length) _EMPTY) info))
  else ret (inr st).

(** The [while position[1] < self._tries] loop over the keys [getch]
    delivers, [-1] among them. With the keys used up and the round still
    open, the result is the locals the round waits with. *)
Fixpoint play_keys (keys : list Z) (st : round) : result (ending + round) :=
  if decide ((position st).2 < _tries) then
    match keys with
    | [] => ret (inr st)
    | key :: rest =>
        if decide (key = -1) then play_keys rest st
        else
          do r <- handle_key key st ;
          match r with
          | inl e => ret (inl e)
          | inr st' => play_keys rest st'
          end
    end
  else ret (inl (Returned false)).

(** The locals a round starts with. *)
Definition opening : round :=
  Round (0, 0) (replicate (Z.to_nat _length) _EMPTY) ∅.

Definition _play_round (keys : list Z) : result (ending + round) :=
  play_keys keys opening.

(** The shape the locals keep: the cursor inside the buffer, the buffer of
    the word length, letters of the game before the cursor and [_EMPTY]
    from the cursor on, only marks in [info_letters]. *)
Definition tidy (st : round) : Prop :=
  0 <= (position st).1 <= _length /\
  0 <= (position st).2 /\
  Z.of_nat (length (guess st)) = _length /\
  (forall (i : nat) (c : char), guess st !! i = Some c ->
     if decide (Z.of_nat i < (position st).1) then c ∈ _letters
     else c = _EMPTY) /\
  Info.marks_only (info_letters st).

(** A key the entry branch takes as the letter [c] itself. *)
Definition typable (c : Z) : Prop :=
  c <> -1 /\ c <> _ESCAPE /\ (c ∉ [KEY_BACKSPACE; KEY_DC; _DEL]) /\
  (0 <= c < 0x110000) /\
  str_upper [c] = [c] /\ str_isalpha [c] = true /\ c ∈ _letters.

End play.

End Round.

(** ** The screen: [_message], [_set_board_char] and the frame of
    [_draw_board], as the calls of [addstr] they make *)

Module Screen.

Definition _BOARD_TOP : Z := 5.
Definition _MESSAGE_OFFSET : Z := 4.
Definition _TITLE : pystr := py "Word Guess!".

(** One call [self._scr.addstr(row, col, text, curses.color_pair(pair))]. *)
Record addstr := Addstr {
  row : Z;
  col : Z;
  text : pystr;
  pair : Z
}.

(** The cells a call writes: those of its row from its column on, one for
    each character. *)
Definition covers (d : addstr) (r c : Z) : Prop :=
  r = row d /\ col d <= c < col d + Z.of_nat (length (text d)).

(** [s[:k]] and [s[k:]] for any [int] [k]; a negative [k] counts from the
    end. *)
Definition slice_to (s : pystr) (k : Z) : pystr :=
  if decide (0 <= k) then take (Z.to_nat k) s
  else take (length s - Z.to_nat (- k)) s.

Definition slice_from (s : pystr) (k : Z) : pystr :=
  if decide (0 <= k) then drop (Z.to_nat k) s
  else drop (length s - Z.to_nat (- k)) s.

(** [c * n] for a one-character string [c]. *)
Definition times (c : char) (n : Z) : pystr := replicate (Z.to_nat n) c.

(** The loop [while len(msg) > 0] of [_message], with [width] and [lines];
    [None] when [fuel] turns of the loop do not end it. *)
Fixpoint wrap (fuel : nat) (max_x : Z) (msg : pystr) (width : Z)
  (lines : list pystr) : option (Z * list pystr) :=
  match msg with
  | [] => Some (width, lines)
  | _ :: _ =>
      match fuel with
      | O => None
      | S fuel =>
          let part := slice_to msg max_x in
          wrap fuel max_x (slice_from msg max_x)
               (width `max` Z.of_nat (length part)) (lines ++ [part])
      end
  end.

(** [_message]: the calls of [addstr] in order, [None] when the first loop
    does not end within one turn for each character of the message. *)
Definition _message (max_x max_y tries : Z) (msg : pystr)
  : option (list addstr) :=
  match wrap (length msg) max_x msg 0 [] with
  | None => None
  | Some (width, lines) =>
      let offset := _BOARD_TOP + tries + _MESSAGE_OFFSET in
      let height := (max_y - offset) `min` 4 in
      let lines :=
        lines ++ replicate (Z.to_nat (height - Z.of_nat (length lines))) [] in
      Some (imap (fun i line =>
                    let pad := max_x - width in
                    let left_pad := pad `div` 2 in
                    let right_pad := 0 `max` (pad - left_pad - 1) in
                    Addstr (offset + Z.of_nat i) 0
                           (times 32 left_pad ++ line ++ times 32 right_pad)
                           _MESSAGE_PAIR)
                 lines)
  end.

(** [_set_board_char], without the [refresh]. *)
Definition _set_board_char (max_x _length x y : Z) (character : pystr)
  (pair : Z) : list addstr :=
  let dx := max_x `div` 2 - _length + 2 * x in
  let dy := _BOARD_TOP + y in
  if decide (length character = 1%nat) then [Addstr dy dx character pair]
  else [].

(** [_draw_board] up to and with the board outline: the title, its
    underline, the top of the frame, the bars of every row, the bottom.
    (The info letters drawn after it go through [_set_info_letter], whose
    columns are computed in floating point.) *)
Definition draw_board_frame (max_x _length _tries : Z) : list addstr :=
  let x := (max_x - Z.of_nat (length _TITLE) - 1) `div` 2 in
  let dx := max_x `div` 2 - _length - 1 in
  [Addstr 1 x _TITLE _MESSAGE_PAIR;
   Addstr 2 x (times 61 (Z.of_nat (length _TITLE))) _MESSAGE_PAIR;
   Addstr (_BOARD_TOP - 1) dx
          ([47] ++ times 45 (_length * 2 - 1) ++ [92]) _BOARD_PAIR]
  ++ (range _tries ≫= fun i =>
      range (_length + 1) ≫= fun j =>
      [Addstr (_BOARD_TOP + Z.of_nat i) (dx + 2 * Z.of_nat j) [124]
              _BOARD_PAIR])
  ++ [Addstr (_BOARD_TOP + _tries) dx
             ([92] ++ times 45 (_length * 2 - 1) ++ [47]) _BOARD_PAIR].

End Screen.

(** ** Further word files *)

Module MoreSamples.

Import CPython.

(** A verb before its past tense, and a word the rules leave alone. *)
Definition walk : list pybytes := [line "walk"].
Definition walked_engine : list pybytes := [line "walked"; line "engine"].
Definition walk_seen : Loader.loader :=
  Eval vm_compute in Samples.loaded (load_pass 6 false walk).
Definition walk_game : Loader.loader :=
  Eval vm_compute in Samples.loaded (__init__ 6 false (walk ++ walked_engine)).

(** A round of the game loaded from cat, cats, tree with the secret TREE,
    six tries and the key codes of ncurses; the keys t and r typed. *)
Definition tree_key : Z -> Round.round -> result (Round.ending + Round.round) :=
  Round.handle_key str_upper str_isalpha 263 330 343 4
    (Loader._letters Samples.cat_cats_tree_game)
    (Loader._all_words Samples.cat_cats_tree_game) (py "TREE").

Definition tree_round : list Z -> result (Round.ending + Round.round) :=
  Round._play_round str_upper str_isalpha 263 330 343 4 6
    (Loader._letters Samples.cat_cats_tree_game)
    (Loader._all_words Samples.cat_cats_tree_game) (py "TREE").

Definition waiting (r : result (Round.ending + Round.round)) : Round.round :=
  match r with
  | inr (inr st) => st
  | _ => Round.opening 0
  end.

Definition typed_t : Round.round :=
  Eval vm_compute in waiting (tree_round [116]).
Definition typed_tr : Round.round :=
  Eval vm_compute in waiting (tree_round [116; 114]).

End MoreSamples.

(** * Properties *)

(** ** The scorer *)

(** Move the element just processed from the pending part of a list to
    the part already done. *)
Ltac shift_done :=
  repeat match goal with
  | |- context [?l ++ ?x :: ?r] =>
      lazymatch r with
      | [] => fail
      | _ => change (l ++ x :: r) with (l ++ ([x] ++ r));
             rewrite (app_assoc l [x] r)
      end
  end.

Ltac next_index IH :=
  shift_done; apply IH; rewrite ?length_app; simpl; lia.

Section scorer_facts.

Import Scorer ScorerSpec.

Lemma getitem_middle {A} (l1 l2 : list A) (x : A) (k : nat) :
  k = length l1 -> getitem (l1 ++ x :: l2) k = ret x.
Proof. intros ->. unfold getitem. by rewrite list_lookup_middle. Qed.

Lemma setitem_middle {A} (l1 l2 : list A) (x y : A) (k : nat) :
  k = length l1 -> setitem (l1 ++ x :: l2) k y = ret (l1 ++ y :: l2).
Proof.
  intros ->. unfold setitem.
  rewrite decide_True by (rewrite length_app; simpl; lia).
  rewrite insert_app_r_alt by lia. by rewrite Nat.sub_diag.
Qed.

Lemma list_index_Some {A} `{EqDecision A} (x : A) (l : list A) (j : nat) :
  list_index x l = Some j -> l !! j = Some x.
Proof.
  revert j. induction l as [|y l IH]; intros j; simpl; [done|].
  destruct (decide (y = x)) as [->|Hne].
  - by intros [= <-].
  - destruct (list_index x l) as [j'|]; simpl; [|done].
    intros [= <-]. simpl. by apply IH.
Qed.

Lemma list_index_None {A} `{EqDecision A} (x : A) (l : list A) :
  list_index x l = None <-> x ∉ l.
Proof.
  induction l as [|y l IH]; simpl.
  - split; [intros _; apply not_elem_of_nil | done].
  - destruct (decide (y = x)) as [->|Hne].
    + split; [done | intros Hn; exfalso; apply Hn; left].
    + rewrite not_elem_of_cons. destruct (list_index x l); simpl.
      * split; [done|]. intros [_ Hn]. by apply IH in Hn.
      * split; [|done]. intros _. split; [congruence | by apply IH].
Qed.

Lemma setitem_index (l : list (option char)) (g : char) (j : nat) :
  list_index (Some g) l = Some j -> setitem l j None = ret (<[ j := None ]> l).
Proof.
  intros Hj%list_index_Some%lookup_lt_Some. unfold setitem.
  by rewrite decide_True.
Qed.

Lemma pair_of_Exact (m : mark) : pair_of m = _EXACT_PAIR <-> m = Exact.
Proof. by destruct m. Qed.

(** The first loop computes pass 1. *)
Lemma exact_loop (rest_w rest_g done_w done_g : pystr)
  (ls : list (option char)) (ps : list Z) (k : nat) :
  length rest_w = length rest_g ->
  k = length done_w -> k = length done_g -> k = length ls -> k = length ps ->
  for_each (exact_step (done_w ++ rest_w) (done_g ++ rest_g))
    (seq k (length rest_w))
    (Scoring (ls ++ (Some <$> rest_w))
             (ps ++ replicate (length rest_w) _MISS_PAIR))
  = ret (Scoring (ls ++ pass1_working rest_w rest_g)
                 (ps ++ (pair_of <$> pass1_marks rest_w rest_g))).
Proof.
  revert rest_g done_w done_g ls ps k.
  induction rest_w as [|w rest_w IH]; intros [|g rest_g] done_w done_g ls ps k;
    simpl; try done.
  intros [= Hlen] Hw Hg Hls Hps.
  unfold exact_step at 1.
  rewrite (getitem_middle done_g) by done.
  rewrite (getitem_middle done_w) by done. simpl.
  destruct (decide (g = w)) as [->|Hne]; simpl.
  - rewrite (setitem_middle ps) by done. simpl.
    rewrite (setitem_middle ls) by done. simpl.
    next_index IH.
  - next_index IH.
Qed.

(** The second loop computes pass 2. *)
Lemma partial_loop (todo : list (char * mark)) (done_g : pystr)
  (working : list (option char)) (ps : list Z) (k : nat) :
  k = length done_g -> k = length ps ->
  for_each (partial_step (done_g ++ todo.*1)) (seq k (length todo))
    (Scoring working (ps ++ (pair_of <$> todo.*2)))
  = ret (Scoring (pass2_working working todo)
                 (ps ++ (pair_of <$> pass2 working todo))).
Proof.
  revert done_g working ps k.
  induction todo as [|[g m] todo IH]; intros done_g working ps k Hg Hps;
    simpl; [done|].
  unfold partial_step at 1. simpl.
  rewrite (getitem_middle ps) by done. simpl.
  destruct (decide (m = Exact)) as [->|Hm].
  - simpl. next_index IH.
  - rewrite decide_False by (by rewrite pair_of_Exact).
    rewrite (getitem_middle done_g) by done. simpl.
    destruct (list_index (Some g) working) as [j|] eqn:Hj; simpl.
    + rewrite (setitem_middle ps) by done. simpl.
      rewrite (setitem_index _ _ _ Hj). simpl.
      next_index IH.
    + next_index IH.
Qed.

Lemma zip_marks (word guess : pystr) :
  length word = length guess ->
  let todo := zip guess (pass1_marks word guess) in
  todo.*1 = guess /\ todo.*2 = pass1_marks word guess /\
  length todo = length word.
Proof.
  intros Hlen todo.
  assert (Hm : length guess = length (pass1_marks word guess)).
  { unfold pass1_marks. rewrite length_zip_with_l_eq; lia. }
  split_and!; [apply fst_zip; lia | apply snd_zip; lia |].
  unfold todo. rewrite length_zip. lia.
Qed.

Lemma exact_pass_refines (n : Z) (word guess : pystr) :
  Z.of_nat (length word) = n -> Z.of_nat (length guess) = n ->
  for_each (exact_step word guess) (range n) (start n word)
  = ret (after_pass1 word guess).
Proof.
  intros Hw Hg. assert (Hlen : length word = length guess) by lia.
  unfold range, start. replace (Z.to_nat n) with (length word) by lia.
  by apply (exact_loop word guess [] [] [] [] 0%nat).
Qed.

Lemma partial_pass_refines (n : Z) (word guess : pystr) :
  Z.of_nat (length word) = n -> Z.of_nat (length guess) = n ->
  for_each (partial_step guess) (range n) (after_pass1 word guess)
  = ret (after_pass2 word guess).
Proof.
  intros Hw Hg. assert (Hlen : length word = length guess) by lia.
  unfold range, after_pass1, after_pass2, Score.
  replace (Z.to_nat n) with (length word) by lia.
  destruct (zip_marks word guess Hlen) as (H1 & H2 & H3).
  pose proof (partial_loop (zip guess (pass1_marks word guess)) []
                (pass1_working word guess) [] 0%nat) as HL.
  simpl in HL. rewrite H1, H2, H3 in HL. by apply HL.
Qed.

(** The block of [_play_round] computes the specification's [Score]. *)
Lemma score_refines (n : Z) (word guess : pystr) :
  Z.of_nat (length word) = n -> Z.of_nat (length guess) = n ->
  score n word guess = ret (pair_of <$> Score word guess).
Proof.
  intros Hw Hg. unfold score.
  rewrite (exact_pass_refines n word guess Hw Hg). simpl.
  by rewrite (partial_pass_refines n word guess Hw Hg).
Qed.

Lemma length_pass2 working todo : length (pass2 working todo) = length todo.
Proof.
  revert working. induction todo as [|[g m] todo IH]; intros working; simpl;
    [done|].
  destruct (decide (m = Exact)); simpl; [by rewrite IH|].
  destruct (list_index (Some g) working); simpl; by rewrite IH.
Qed.

Lemma length_Score (word guess : pystr) :
  length word = length guess -> length (Score word guess) = length word.
Proof.
  intros Hlen. unfold Score, pass1_marks.
  rewrite length_pass2, length_zip, length_zip_with_l_eq; lia.
Qed.

(** Decide the tests of a filtered head by cases. *)
Ltac count_cases :=
  rewrite ?filter_cons; csimpl; repeat case_decide; csimpl in *;
  first [ lia
        | exfalso;
          unfold _MISS_PAIR, _PARTIAL_PAIR, _EXACT_PAIR in *;
          naive_solver lia ].

(** Blanking a slot that held [g] removes one occurrence of [g] from the
    working copy and none of any other letter. *)
Lemma occurrences_blank (working : list (option char)) (j : nat) (g c : char) :
  working !! j = Some (Some g) ->
  (occurrences (Some c) (<[ j := None ]> working)
   + (if decide (g = c) then 1 else 0)
   = occurrences (Some c) working)%nat.
Proof.
  unfold occurrences. revert j.
  induction working as [|x working IH]; intros [|j]; csimpl; try done.
  - intros [= ->]. count_cases.
  - intros Hj. specialize (IH j Hj). count_cases.
Qed.

(** Pass 2 credits the letter [c] no more often than pass 1 did plus the
    occurrences of [c] left in the working copy. *)
Lemma pass2_credit (c : char) (todo : list (char * mark))
  (working : list (option char)) :
  Forall (fun gm => gm.2 <> Partial) todo ->
  (credited c (todo.*1) (pair_of <$> pass2 working todo)
   <= credited c (todo.*1) (pair_of <$> todo.*2)
      + occurrences (Some c) working)%nat.
Proof.
  unfold credited. revert working.
  induction todo as [|[g m] todo IH]; intros working Hnp; csimpl; [lia|].
  apply Forall_cons in Hnp as [Hm Hnp]. simpl in Hm.
  destruct m; [| done |]; csimpl.
  - destruct (list_index (Some g) working) as [j|] eqn:Hj; csimpl.
    + apply list_index_Some in Hj.
      pose proof (occurrences_blank working j g c Hj) as Hb.
      specialize (IH (<[ j := None ]> working) Hnp). count_cases.
    + specialize (IH working Hnp). count_cases.
  - specialize (IH working Hnp). count_cases.
Qed.

(** Pass 1 credits [c] once for each occurrence of [c] it blanks. *)
Lemma pass1_credit (c : char) (word guess : pystr) :
  (credited c guess (pair_of <$> pass1_marks word guess)
   + occurrences (Some c) (pass1_working word guess)
   <= occurrences c word)%nat.
Proof.
  unfold credited, occurrences, pass1_marks, pass1_working.
  revert guess. induction word as [|w word IH]; intros [|g guess]; csimpl;
    try lia.
  specialize (IH guess).
  destruct (decide (g = w)) as [->|Hne]; count_cases.
Qed.

Lemma pass1_marks_not_Partial (word guess : pystr) :
  Forall (fun gm : char * mark => gm.2 <> Partial)
         (zip guess (pass1_marks word guess)).
Proof.
  unfold pass1_marks. revert word.
  induction guess as [|g guess IH]; intros [|w word]; simpl;
    try by constructor.
  constructor; [|apply IH]. simpl. by destruct (decide (g = w)).
Qed.

Lemma Score_credit (c : char) (word guess : pystr) :
  length word = length guess ->
  (credited c guess (pair_of <$> Score word guess) <= occurrences c word)%nat.
Proof.
  intros Hlen. unfold Score.
  destruct (zip_marks word guess Hlen) as (H1 & H2 & _).
  pose proof (pass2_credit c (zip guess (pass1_marks word guess))
                (pass1_working word guess)
                (pass1_marks_not_Partial word guess)) as HC.
  rewrite H1, H2 in HC.
  pose proof (pass1_credit c word guess). lia.
Qed.

(** Pass 1 marks a position Exact exactly when the guess and the secret
    hold the same letter there. *)
Lemma pass1_marks_Exact (word guess : pystr) (i : nat) :
  pass1_marks word guess !! i = Some Exact <->
  exists c, guess !! i = Some c /\ word !! i = Some c.
Proof.
  unfold pass1_marks. rewrite lookup_zip_with_Some. split.
  - intros (s & g & Hd & Hs & Hg). destruct (decide (g = s)); [|done].
    subst. eauto.
  - intros (c & Hg & Hs). exists c, c. by rewrite decide_True.
Qed.

(** C1. For a secret and a guess of the word length, the scoring block of
    [_play_round] is the two-pass algorithm of the specification: its first
    loop ends in the marks and the working copy of pass 1 (Exact where the
    letters agree, that slot of the copy nulled), its second loop ends in
    those of pass 2 (left to right over the positions not Exact, Partial
    and the first slot holding the letter nulled when the letter is still
    in the copy, the mark left as it is otherwise), and the pairs it
    returns are the marks of [Score]. *)
Theorem score_two_pass (n : Z) (word guess : pystr) :
  Z.of_nat (length word) = n -> Z.of_nat (length guess) = n ->
  for_each (exact_step word guess) (range n) (start n word)
    = ret (after_pass1 word guess) /\
  for_each (partial_step guess) (range n) (after_pass1 word guess)
    = ret (after_pass2 word guess) /\
  score n word guess = ret (pair_of <$> Score word guess).
Proof.
  intros Hw Hg. split_and!.
  - by apply exact_pass_refines.
  - by apply partial_pass_refines.
  - by apply score_refines.
Qed.

Lemma score_two_pass_witness :
  for_each (exact_step (py "ALLOY") (py "LOLLY")) (range 5)
           (start 5 (py "ALLOY"))
    = ret (after_pass1 (py "ALLOY") (py "LOLLY")) /\
  for_each (partial_step (py "LOLLY")) (range 5)
           (after_pass1 (py "ALLOY") (py "LOLLY"))
    = ret (after_pass2 (py "ALLOY") (py "LOLLY")) /\
  score 5 (py "ALLOY") (py "LOLLY")
    = ret (pair_of <$> Score (py "ALLOY") (py "LOLLY")).
Proof.
  apply (score_two_pass 5 (py "ALLOY") (py "LOLLY")); reflexivity.
Defined.

(** The specification's two further samples: no letter shared, and the
    secret itself. *)
Example score_HOUSE_PRINT :
  score 5 (py "HOUSE") (py "PRINT") = ret (replicate 5 _MISS_PAIR).
Proof. reflexivity. Qed.

Example score_HOUSE_HOUSE :
  score 5 (py "HOUSE") (py "HOUSE") = ret (replicate 5 _EXACT_PAIR).
Proof. reflexivity. Qed.

(** C2. For a secret and a guess of the word length, the scorer returns a
    list of as many pairs as the word has letters, each of them the miss,
    the partial or the exact pair. *)
Theorem score_length_and_marks (n : Z) (word guess : pystr) :
  Z.of_nat (length word) = n -> Z.of_nat (length guess) = n ->
  exists ps : list Z,
    score n word guess = ret ps /\
    Z.of_nat (length ps) = n /\
    Forall (fun p => p = _MISS_PAIR \/ p = _PARTIAL_PAIR \/ p = _EXACT_PAIR)
           ps.
Proof.
  intros Hw Hg. exists (pair_of <$> Score word guess). split_and!.
  - by apply score_refines.
  - rewrite length_fmap, length_Score; lia.
  - apply Forall_fmap, Forall_true. intros []; simpl; auto.
Qed.

Lemma score_length_and_marks_witness :
  exists ps : list Z,
    score 5 (py "HOUSE") (py "PRINT") = ret ps /\
    Z.of_nat (length ps) = 5 /\
    Forall (fun p => p = _MISS_PAIR \/ p = _PARTIAL_PAIR \/ p = _EXACT_PAIR)
           ps.
Proof.
  apply (score_length_and_marks 5 (py "HOUSE") (py "PRINT")); reflexivity.
Defined.

(** C5. The secret ALLOY scored against the guess LOLLY: position 0
    partial, position 1 partial, position 2 exact, position 3 miss,
    position 4 exact. *)
Theorem score_ALLOY_LOLLY :
  score 5 (py "ALLOY") (py "LOLLY")
  = ret [_PARTIAL_PAIR; _PARTIAL_PAIR; _EXACT_PAIR; _MISS_PAIR; _EXACT_PAIR].
Proof. reflexivity. Qed.

(** C10. For a secret and a guess of the word length and every letter [c],
    the positions of the guess that hold [c] and are scored exact or
    partial are at most as many as the occurrences of [c] in the secret. *)
Theorem score_credit_bound (n : Z) (word guess : pystr) (c : char) :
  Z.of_nat (length word) = n -> Z.of_nat (length guess) = n ->
  exists ps : list Z,
    score n word guess = ret ps /\
    (credited c guess ps <= occurrences c word)%nat.
Proof.
  intros Hw Hg. exists (pair_of <$> Score word guess). split.
  - by apply score_refines.
  - apply Score_credit. lia.
Qed.

Lemma score_credit_bound_witness :
  exists ps : list Z,
    score 5 (py "ALLOY") (py "LOLLY") = ret ps /\
    (credited 76%Z (py "LOLLY") ps <= occurrences 76%Z (py "ALLOY"))%nat.
Proof.
  apply (score_credit_bound 5 (py "ALLOY") (py "LOLLY") 76); reflexivity.
Defined.

End scorer_facts.

(** ** The info letters *)

Ltac marks :=
  unfold Info.is_mark, _MISS_PAIR, _PARTIAL_PAIR, _EXACT_PAIR in *.

Section info_facts.

Import Scorer ScorerSpec Info.

Lemma for_each_app {I S} (body : I -> S -> result S) (l1 l2 : list I) (s : S) :
  for_each body (l1 ++ l2) s
  = (do s' <- for_each body l1 s ; for_each body l2 s').
Proof.
  revert s. induction l1 as [|i l1 IH]; intros s; simpl; [done|].
  destruct (body i s); simpl; [done | apply IH].
Qed.


Lemma remember_marks_only info g p :
  marks_only info -> is_mark p -> marks_only (remember info g p).
Proof.
  intros Hinfo Hp c q. unfold remember.
  destruct (improves info g p); [|apply Hinfo].
  destruct (decide (g = c)) as [->|Hne].
  - rewrite lookup_insert_eq. by intros [= <-].
  - rewrite lookup_insert_ne by done. apply Hinfo.
Qed.

Lemma remember_is_Some info g p :
  is_mark p -> is_Some (remember info g p !! g).
Proof.
  intros Hp. unfold remember, improves.
  destruct (info !! g) as [q|] eqn:Hq.
  - destruct (_ || _); [rewrite lookup_insert_eq | rewrite Hq]; eauto.
  - rewrite (bool_decide_eq_true_2 (None = None)) by done.
    rewrite (bool_decide_eq_true_2 (None <> Some _)) by done.
    rewrite !andb_true_r.
    destruct Hp as [->| [->| ->]]; simpl; rewrite lookup_insert_eq; eauto.
Qed.

(** The guarded assignment takes the better of the remembered status and
    the new mark. *)
Lemma remember_rank info g p c :
  marks_only info -> is_mark p ->
  rank (remember info g p !! c)
  = (rank (info !! c) `max` (if decide (g = c) then rank (Some p) else 0))%nat.
Proof.
  intros Hinfo Hp. unfold remember.
  destruct (decide (g = c)) as [->|Hne].
  - unfold improves. destruct (info !! c) as [q|] eqn:Hq.
    + apply Hinfo in Hq as Hm. rewrite (bool_decide_eq_false_2 (Some q = None)) by done.
      rewrite andb_false_r, orb_false_r.
      marks. destruct Hp as [->| [->| ->]], Hm as [->| [->| ->]]; simpl;
        rewrite ?lookup_insert_eq, ?Hq; done.
    + rewrite (bool_decide_eq_true_2 (None = None)) by done.
      rewrite (bool_decide_eq_true_2 (None <> Some _)) by done.
      rewrite !andb_true_r.
      marks. destruct Hp as [->| [->| ->]]; simpl;
        rewrite lookup_insert_eq; done.
  - destruct (improves info g p); [rewrite lookup_insert_ne by done|]; lia.
Qed.

(** The paint loop applies the guarded assignment position by position. *)
Lemma paint_loop (todo : list (char * Z)) (done_g : pystr) (done_p : list Z)
  (info : gmap char Z) (k : nat) :
  k = length done_g -> k = length done_p ->
  Forall (fun gp => is_mark gp.2) todo ->
  for_each (paint_step (done_g ++ todo.*1) (done_p ++ todo.*2))
    (seq k (length todo)) info
  = ret (painted info todo).
Proof.
  revert done_g done_p info k.
  induction todo as [|[g p] todo IH]; intros done_g done_p info k Hg Hp Hm;
    csimpl; [done|].
  apply Forall_cons in Hm as [Hgp Hm]. simpl in Hgp.
  unfold paint_step at 1.
  rewrite (getitem_middle done_g), (getitem_middle done_p) by done. simpl.
  unfold dict_getitem.
  destruct (remember_is_Some info g p Hgp) as [q ->]. simpl.
  shift_done. apply IH; rewrite ?length_app; simpl; try lia. done.
Qed.

Lemma painted_marks_only (todo : list (char * Z)) (info : gmap char Z) :
  marks_only info -> Forall (fun gp => is_mark gp.2) todo ->
  marks_only (painted info todo).
Proof.
  revert info. induction todo as [|[g p] todo IH]; intros info Hinfo Hm;
    simpl; [done|].
  apply Forall_cons in Hm as [Hgp Hm].
  apply IH; [by apply remember_marks_only | done].
Qed.

(** After a guess is painted a letter holds the best of its old status and
    the marks the guess gave it. *)
Lemma painted_rank (todo : list (char * Z)) (info : gmap char Z) (c : char) :
  marks_only info -> Forall (fun gp => is_mark gp.2) todo ->
  rank (painted info todo !! c) = (rank (info !! c) `max` best c todo)%nat.
Proof.
  revert info. induction todo as [|[g p] todo IH]; intros info Hinfo Hm;
    simpl; [lia|].
  apply Forall_cons in Hm as [Hgp Hm]. simpl in Hgp.
  unfold painted in IH. rewrite IH by (by try apply remember_marks_only).
  rewrite remember_rank by done. destruct (decide (g = c)); simpl; lia.
Qed.

Lemma Score_is_mark (word guess : pystr) :
  Forall is_mark (pair_of <$> Score word guess).
Proof. apply Forall_fmap, Forall_true. intros []; marks; simpl; auto. Qed.

(** A scored guess of the word length paints the marks of [Score]. *)
Lemma scored_guess_painted (n : Z) (word guess : pystr) (info : gmap char Z) :
  Z.of_nat (length word) = n -> Z.of_nat (length guess) = n ->
  scored_guess n word guess info
  = ret (painted info (zip guess (pair_of <$> Score word guess))).
Proof.
  intros Hw Hg. unfold scored_guess.
  rewrite (score_refines n word guess Hw Hg). simpl.
  set (ps := pair_of <$> Score word guess).
  assert (Hps : length ps = length guess).
  { unfold ps. rewrite length_fmap, length_Score; lia. }
  pose proof (paint_loop (zip guess ps) [] [] info 0%nat) as HL.
  simpl in HL. rewrite fst_zip, snd_zip, length_zip in HL by lia.
  unfold range. replace (Z.to_nat n) with (length guess `min` length ps)%nat
    by lia.
  apply HL; try done.
  apply Forall_forall. intros [g p] Hin%elem_of_zip_r.
  pose proof (Score_is_mark word guess) as HF.
  rewrite Forall_forall in HF. by apply HF.
Qed.

(** Every sequence of guesses of the word length is scored and painted to
    the end, and the dict only ever holds the three marks. *)
Lemma round_info_total (n : Z) (word : pystr) (guesses : list pystr)
  (info0 : gmap char Z) :
  Z.of_nat (length word) = n ->
  Forall (fun g => Z.of_nat (length g) = n) guesses ->
  marks_only info0 ->
  exists info,
    for_each (scored_guess n word) guesses info0 = ret info /\
    marks_only info.
Proof.
  intros Hw. revert info0.
  induction guesses as [|g guesses IH]; intros info0 Hgs Hinfo; simpl.
  - by exists info0.
  - apply Forall_cons in Hgs as [Hg Hgs].
    rewrite (scored_guess_painted n word g info0 Hw Hg). simpl.
    apply IH; [done|].
    apply painted_marks_only; [done|].
    apply Forall_forall. intros [c p] Hin%elem_of_zip_r.
    pose proof (Score_is_mark word g) as HF.
    rewrite Forall_forall in HF. by apply HF.
Qed.

(** What a rank says about a status that is one of the three marks. *)
Lemma rank_cases (info : gmap char Z) (c : char) :
  marks_only info ->
  (info !! c = None /\ rank (info !! c) = 0%nat) \/
  (info !! c = Some _MISS_PAIR /\ rank (info !! c) = 1%nat) \/
  (info !! c = Some _PARTIAL_PAIR /\ rank (info !! c) = 2%nat) \/
  (info !! c = Some _EXACT_PAIR /\ rank (info !! c) = 3%nat).
Proof.
  intros Hinfo. destruct (info !! c) as [p|] eqn:Hp; [|by left].
  apply Hinfo in Hp as [->| [->| ->]]; auto.
Qed.

(** C8. Along every sequence of scored guesses of a round, the status the
    dict remembers for a letter after one more guess is the best, in the
    order exact over partial over miss over unknown, of the status it had
    and the marks the guess gave the letter; so an exact letter stays
    exact, and a letter holds partial or miss only when nothing better was
    remembered for it before. *)
Theorem info_letters_never_downgrade (n : Z) (word : pystr)
  (guesses : list pystr) (guess : pystr) :
  Z.of_nat (length word) = n ->
  Forall (fun g => Z.of_nat (length g) = n) guesses ->
  Z.of_nat (length guess) = n ->
  exists (info info' : gmap char Z) (pairs : list Z),
    round_info n word guesses = ret info /\
    score n word guess = ret pairs /\
    round_info n word (guesses ++ [guess]) = ret info' /\
    marks_only info' /\
    forall c : char,
      rank (info' !! c)
        = (rank (info !! c) `max` best c (zip guess pairs))%nat /\
      (info !! c = Some _EXACT_PAIR -> info' !! c = Some _EXACT_PAIR) /\
      (info' !! c = Some _PARTIAL_PAIR -> info !! c <> Some _EXACT_PAIR) /\
      (info' !! c = Some _MISS_PAIR ->
       info !! c = None \/ info !! c = Some _MISS_PAIR).
Proof.
  intros Hw Hgs Hg.
  destruct (round_info_total n word guesses ∅ Hw Hgs) as (info & Hrun & Hinfo).
  { intros c p. by rewrite lookup_empty. }
  set (pairs := pair_of <$> Score word guess).
  assert (Hpairs : Forall (fun gp : char * Z => is_mark gp.2)
                          (zip guess pairs)).
  { apply Forall_forall. intros [c p] Hin%elem_of_zip_r.
    pose proof (Score_is_mark word guess) as HF.
    rewrite Forall_forall in HF. by apply HF. }
  pose proof (painted_marks_only _ _ Hinfo Hpairs) as Hinfo'.
  exists info, (painted info (zip guess pairs)), pairs. split_and!.
  - done.
  - by apply score_refines.
  - unfold round_info in *. rewrite for_each_app, Hrun. simpl.
    by rewrite (scored_guess_painted n word guess info Hw Hg).
  - done.
  - intros c. pose proof (painted_rank _ _ c Hinfo Hpairs) as Hrank.
    split; [done|].
    destruct (rank_cases info c Hinfo) as [[E R]| [[E R]| [[E R]| [E R]]]],
      (rank_cases _ c Hinfo') as [[E' R']| [[E' R']| [[E' R']| [E' R']]]];
      rewrite R, R' in Hrank; rewrite E, E';
      first [ lia | split_and!; intros; auto; done ].
Qed.

Lemma info_letters_never_downgrade_witness :
  exists (info info' : gmap char Z) (pairs : list Z),
    round_info 5 (py "ALLOY") [py "LOLLY"] = ret info /\
    score 5 (py "ALLOY") (py "ATOLL") = ret pairs /\
    round_info 5 (py "ALLOY") ([py "LOLLY"] ++ [py "ATOLL"]) = ret info' /\
    marks_only info' /\
    forall c : char,
      rank (info' !! c)
        = (rank (info !! c) `max` best c (zip (py "ATOLL") pairs))%nat /\
      (info !! c = Some _EXACT_PAIR -> info' !! c = Some _EXACT_PAIR) /\
      (info' !! c = Some _PARTIAL_PAIR -> info !! c <> Some _EXACT_PAIR) /\
      (info' !! c = Some _MISS_PAIR ->
       info !! c = None \/ info !! c = Some _MISS_PAIR).
Proof.
  apply (info_letters_never_downgrade 5 (py "ALLOY") [py "LOLLY"]
           (py "ATOLL")).
  - reflexivity.
  - repeat constructor.
  - reflexivity.
Defined.

End info_facts.

(** ** The dictionary loader *)

Lemma for_each_invariant {I S} (P : S -> Prop) (body : I -> S -> result S)
  (items : list I) (s s' : S) :
  (forall i t t', P t -> body i t = ret t' -> P t') ->
  P s -> for_each body items s = ret s' -> P s'.
Proof.
  intros Hstep. revert s.
  induction items as [|i items IH]; intros s Hs; simpl.
  - by intros [= <-].
  - destruct (body i s) as [e|t] eqn:Hb; simpl; [done|].
    apply IH. by eapply Hstep.
Qed.

Section loader_facts.

Import Loader.

Variable bytes_decode : pybytes -> option pystr.
Variable str_strip : pystr -> pystr.
Variable str_upper : pystr -> pystr.
Variable str_isalpha : pystr -> bool.

Abbreviation _rot13upper := (Loader._rot13upper str_upper).
Abbreviation wanted := (Loader.wanted str_upper str_isalpha).
Abbreviation load_line :=
  (Loader.load_line bytes_decode str_strip str_upper str_isalpha).
Abbreviation load_pass :=
  (Loader.load_pass bytes_decode str_strip str_upper str_isalpha).
Abbreviation __init__ :=
  (Loader.__init__ bytes_decode str_strip str_upper str_isalpha).
Abbreviation main := (Loader.main bytes_decode str_strip str_upper str_isalpha).
Abbreviation pool_clean := (Loader.pool_clean str_upper).

(** What one line does to the attributes: the set of all words grows by
    the line's word; the pool stays, or gains that word, which then passed
    the test against the grown set. *)
Lemma load_line_step (length : Z) (accented : bool) (line : pybytes)
  (self self' : loader) :
  load_line length accented line self = ret self' ->
  exists WORD : pystr,
    _all_words self' = {[ WORD ]} ∪ _all_words self /\
    is_Some (word self') /\
    (_words self' = _words self \/
     _words self' = _words self ++ [WORD] /\
     wanted (_all_words self') length accented WORD = true).
Proof.
  unfold Loader.load_line.
  destruct (match bytes_decode line with
            | Some decoded => Some decoded
            | None => word self
            end) as [word0|]; [|done].
  destruct (capitalised (str_strip word0)).
  - intros [= <-]. simpl. eauto 6.
  - destruct (Loader.wanted _ _ _ _ _ _) eqn:Hw; intros [= <-]; simpl;
      eauto 8.
Qed.

(** A line raises only while [word] is unbound, and then for a line that
    does not decode. *)
Lemma load_line_raise (length : Z) (accented : bool) (line : pybytes)
  (self : loader) (e : exn) :
  load_line length accented line self = raise e ->
  e = UnboundLocalError /\ bytes_decode line = None /\ word self = None.
Proof.
  unfold Loader.load_line.
  destruct (bytes_decode line) as [decoded|].
  - destruct (capitalised _); [done|]. by destruct (Loader.wanted _ _ _ _ _ _).
  - destruct (word self) as [word0|]; [|by intros [= <-]].
    destruct (capitalised _); [done|]. by destruct (Loader.wanted _ _ _ _ _ _).
Qed.

(** The pass raises in one way only: the first line does not decode. *)
Lemma load_lines_raise (length : Z) (accented : bool)
  (lines : list pybytes) (self : loader) (e : exn) :
  for_each (load_line length accented) lines self = raise e ->
  e = UnboundLocalError /\ word self = None.
Proof.
  revert self. induction lines as [|line lines IH]; intros self; simpl;
    [done|].
  destruct (load_line length accented line self) as [e'|self'] eqn:Hl; simpl.
  - intros [= <-]. by apply load_line_raise in Hl as (-> & _ & ->).
  - intros Hr. apply IH in Hr as [_ Hr].
    apply load_line_step in Hl as (_ & _ & [w Hw] & _). congruence.
Qed.

Lemma load_pass_undecodable_first (length : Z) (accented : bool)
  (line : pybytes) (lines : list pybytes) :
  bytes_decode line = None ->
  load_pass length accented (line :: lines) = raise UnboundLocalError.
Proof.
  intros Hd. unfold Loader.load_pass. simpl.
  unfold Loader.load_line at 1. by rewrite Hd.
Qed.

Lemma init_loaded (length : Z) (accented : bool) (lines : list pybytes)
  (game : loader) :
  __init__ length accented lines = ret game ->
  load_pass length accented lines = ret game /\ _words game <> [].
Proof.
  unfold Loader.__init__.
  destruct (load_pass length accented lines) as [e|self]; simpl; [done|].
  destruct (decide _) as [He|Hne]; [done|]. intros [= <-].
  split; [done|]. by destruct (_words self).
Qed.

Lemma pool_known_step length accented line self self' :
  pool_known self -> load_line length accented line self = ret self' ->
  pool_known self'.
Proof.
  intros Hinv (WORD & Hall & _ & Hw)%load_line_step w.
  rewrite Hall. destruct Hw as [-> | [-> _]].
  - intros Hin%Hinv. set_solver.
  - intros [Hin%Hinv | ->%list_elem_of_singleton]%elem_of_app; set_solver.
Qed.

Lemma wanted_clean all_words length accented w :
  wanted all_words length accented w = true ->
  _rot13upper w ∉ _OFFENSIVE_WORDS.
Proof.
  unfold Loader.wanted. rewrite !andb_true_iff.
  intros [[[[[[[H _] _] _] _] _] _] _]. by apply bool_decide_eq_true in H.
Qed.

Lemma wanted_final_letter all_words length accented w :
  wanted all_words length accented w = true ->
  last_chars 1 w ∈ py <$> ["D"; "R"; "S"; "Y"]%string ->
  drop_last 1 w ∉ all_words.
Proof.
  unfold Loader.wanted. rewrite !andb_true_iff.
  intros [[[[_ H] _] _] _] Hlast Hroot.
  apply negb_true_iff, andb_false_iff in H as [H|H];
    apply bool_decide_eq_false in H; done.
Qed.

Lemma pool_clean_step length accented line self self' :
  pool_clean self -> load_line length accented line self = ret self' ->
  pool_clean self'.
Proof.
  intros Hinv (WORD & _ & _ & Hw)%load_line_step w.
  destruct Hw as [-> | [-> Hwanted]]; [apply Hinv|].
  intros [Hin%Hinv | ->%list_elem_of_singleton]%elem_of_app; [done|].
  by eapply wanted_clean.
Qed.

Lemma kept_out_step length accented line w self self' :
  last_chars 1 w ∈ py <$> ["D"; "R"; "S"; "Y"]%string ->
  kept_out w self -> load_line length accented line self = ret self' ->
  kept_out w self'.
Proof.
  intros Hlast [Hroot Hout] (WORD & Hall & _ & Hw)%load_line_step.
  assert (Hroot' : drop_last 1 w ∈ _all_words self') by set_solver.
  split; [done|].
  destruct Hw as [-> | [-> Hwanted]]; [done|].
  intros [Hin | ->%list_elem_of_singleton]%elem_of_app; [done|].
  by eapply wanted_final_letter.
Qed.

(** C6. Whatever the file and the word length: when the pass ends with
    an empty pool, [__init__] raises [ValueError] and the program ends
    before the game loop; when it ends with a word in the pool, [__init__]
    returns the game and the game loop is entered. (The pass itself ends
    early in one way only, on [UnboundLocalError]; loading fails then
    too.) *)
Theorem empty_pool_fails (length : Z) (accented : bool)
  (lines : list pybytes) :
  match load_pass length accented lines with
  | inr self =>
      if decide (_words self = [])
      then __init__ length accented lines = raise ValueError /\
           main length accented lines = Uncaught ValueError
      else __init__ length accented lines = ret self /\
           main length accented lines = Played self
  | inl e =>
      e = UnboundLocalError /\
      __init__ length accented lines = raise e /\
      main length accented lines = Uncaught e
  end.
Proof.
  unfold Loader.main, Loader.__init__.
  destruct (load_pass length accented lines) as [e|self] eqn:Hp; simpl.
  - apply load_lines_raise in Hp as [-> _]. done.
  - destruct (decide (_words self = [])) as [He|Hne].
    + rewrite He. simpl. done.
    + rewrite decide_False; [done|].
      intros Hl. by apply Hne, nil_length_inv.
Qed.

(** C7. No word of a loaded pool rotates (by [_rot13upper]) into the
    blocklist; put the other way, a word that rotates into the blocklist
    is in no loaded pool, however the file spelled it. *)
Theorem pool_has_no_blocklisted_word (length : Z) (accented : bool)
  (lines : list pybytes) (game : loader) (w : pystr) :
  __init__ length accented lines = ret game ->
  (w ∈ _words game -> _rot13upper w ∉ _OFFENSIVE_WORDS) /\
  (_rot13upper w ∈ _OFFENSIVE_WORDS -> w ∉ _words game).
Proof.
  intros [Hp _]%init_loaded.
  assert (Hclean : pool_clean game).
  { eapply (for_each_invariant pool_clean); [| |exact Hp].
    - intros line t t'. apply pool_clean_step.
    - intros v Hv. by apply not_elem_of_nil in Hv. }
  split; [apply Hclean|]. intros Hb Hin. by apply Hclean in Hin.
Qed.

(** C9. Every word of a loaded pool is in the set of all words, so the
    secret drawn from the pool is never rejected as an unknown word. *)
Theorem pool_words_are_known (length : Z) (accented : bool)
  (lines : list pybytes) (game : loader) (w : pystr) :
  __init__ length accented lines = ret game ->
  w ∈ _words game ->
  w ∈ _all_words game /\ unknown_word game w = false.
Proof.
  intros [Hp _]%init_loaded.
  assert (Hknown : pool_known game).
  { eapply (for_each_invariant pool_known); [| |exact Hp].
    - intros line t t'. apply pool_known_step.
    - intros v Hv. by apply not_elem_of_nil in Hv. }
  intros Hin%Hknown. split; [done|].
  unfold unknown_word. by apply bool_decide_eq_false_2; intros ?.
Qed.

(** C4, amended. The inflection rule for a final D, R, S or Y looks the
    shortened word up in the words read so far: once the shortened form
    has been read while the word is not in the pool, the word is not in
    the loaded pool. *)
Theorem final_letter_rule_on_words_read (length : Z) (accented : bool)
  (pre post : list pybytes) (seen game : loader) (w : pystr) :
  load_pass length accented pre = ret seen ->
  __init__ length accented (pre ++ post) = ret game ->
  last_chars 1 w ∈ py <$> ["D"; "R"; "S"; "Y"]%string ->
  drop_last 1 w ∈ _all_words seen ->
  w ∉ _words seen ->
  w ∉ _words game.
Proof.
  intros Hpre [Hp _]%init_loaded Hlast Hroot Hout.
  unfold Loader.load_pass in *. rewrite for_each_app, Hpre in Hp. simpl in Hp.
  eapply (for_each_invariant (kept_out w)); [| |exact Hp].
  - intros line t t'. by apply kept_out_step.
  - done.
Qed.

End loader_facts.

(** ** The loader run on word files *)

Section loader_runs.

Import Loader CPython Samples.

(** Settle a decidable statement about a concrete run by evaluation. *)
Ltac run :=
  match goal with
  | |- ?P => apply (bool_decide_unpack P); vm_compute; exact I
  end.

Lemma pool_has_no_blocklisted_word_witness :
  (py "TREE" ∈ _words casings_game ->
   _rot13upper str_upper (py "TREE") ∉ _OFFENSIVE_WORDS) /\
  (_rot13upper str_upper (py "TREE") ∈ _OFFENSIVE_WORDS ->
   py "TREE" ∉ _words casings_game).
Proof.
  apply (pool_has_no_blocklisted_word bytes_decode str_strip str_upper
           str_isalpha 4 false casings casings_game (py "TREE")).
  vm_compute. reflexivity.
Defined.

(** The blocklisted word is loaded in none of its casings. *)
Example blocklisted_casings :
  _rot13upper str_upper (py "ANAL") = py "NANY" /\
  CPython.__init__ 4 false casings = ret casings_game /\
  _words casings_game = [py "TREE"].
Proof. split_and!; vm_compute; reflexivity. Qed.

Lemma pool_words_are_known_witness :
  py "TREE" ∈ _all_words cat_cats_tree_game /\
  unknown_word cat_cats_tree_game (py "TREE") = false.
Proof.
  apply (pool_words_are_known bytes_decode str_strip str_upper str_isalpha
           4 false (cat ++ cats_tree) cat_cats_tree_game (py "TREE")).
  - vm_compute. reflexivity.
  - run.
Defined.

(** The specification's sample dictionary, word length 3: CAT is loaded;
    CATS, "cat's" and Catherine are not. *)
Example sample_dictionary :
  _words (loaded (CPython.__init__ 3 false
                    [line "cat"; line "cats"; line "cat's";
                     line "Catherine"]))
  = [py "CAT"].
Proof. vm_compute. reflexivity. Qed.

(** C4, as stated, fails: with the plural on the line before its singular,
    CATS ends in S, CAT is in the set of all words of the file, and CATS
    is in the pool. *)
Lemma cats_before_cat_is_loaded :
  ~ dropped_against_whole_file bytes_decode str_strip str_upper str_isalpha
      4 false cats_cat.
Proof.
  intros Hclaim.
  apply (Hclaim cats_cat_game (py "CATS")).
  - vm_compute. reflexivity.
  - run.
  - run.
  - run.
Qed.

Lemma final_letter_rule_on_words_read_witness :
  py "CATS" ∉ _words cat_cats_tree_game.
Proof.
  apply (final_letter_rule_on_words_read bytes_decode str_strip str_upper
           str_isalpha 4 false cat cats_tree cat_seen cat_cats_tree_game
           (py "CATS")).
  - vm_compute. reflexivity.
  - vm_compute. reflexivity.
  - run.
  - run.
  - run.
Defined.

(** C3, where the code departs from it. The line of the byte 0xFF does not
    decode; as the first line of the file it is not skipped: the pass ends
    in [UnboundLocalError] and nothing is loaded. *)
Theorem undecodable_first_line_aborts :
  bytes_decode undecodable = None /\
  CPython.__init__ 3 false undecodable_first = raise UnboundLocalError /\
  CPython.main 3 false undecodable_first = Uncaught UnboundLocalError.
Proof. split_and!; vm_compute; reflexivity. Qed.

(** After a decoded line, a line that does not decode runs the previous
    word through the loop body once more: here the pool holds it twice. *)
Example undecodable_line_repeats_word :
  bytes_decode elan = Some [0xE9; 0x6C; 0x61; 0x6E; 0x0A] /\
  _words (loaded (CPython.__init__ 4 true [elan]))
    = [[0xC9; 0x4C; 0x41; 0x4E]] /\
  _words (loaded (CPython.__init__ 4 true elan_undecodable))
    = [[0xC9; 0x4C; 0x41; 0x4E]; [0xC9; 0x4C; 0x41; 0x4E]].
Proof. split_and!; vm_compute; reflexivity. Qed.

End loader_runs.

(** * Further properties of the code *)

(** ** The scorer: what the marks say *)

Ltac tally :=
  csimpl; rewrite ?filter_cons; csimpl; repeat case_decide; csimpl in *;
  first [ lia
        | exfalso;
          unfold _MISS_PAIR, _PARTIAL_PAIR, _EXACT_PAIR in *;
          naive_solver lia ].

Section scorer_more.

Import Scorer ScorerSpec.

#[local] Arguments Nat.min : simpl never.

(** Pass 2 neither makes nor unmakes an exact mark. *)
Lemma pass2_Exact_lookup (todo : list (char * mark))
  (working : list (option char)) (i : nat) :
  pass2 working todo !! i = Some Exact <-> todo.*2 !! i = Some Exact.
Proof.
  revert working i. induction todo as [|[g m] todo IH]; intros working i;
    csimpl; [done|].
  destruct (decide (m = Exact)) as [->|Hm].
  - destruct i; csimpl; [done | apply IH].
  - destruct (list_index (Some g) working); destruct i; csimpl;
      try apply IH; split; intros [= E]; done.
Qed.

Lemma Score_Exact_lookup (word guess : pystr) (i : nat) :
  length word = length guess ->
  Score word guess !! i = Some Exact <->
  exists c, guess !! i = Some c /\ word !! i = Some c.
Proof.
  intros Hlen. unfold Score. rewrite pass2_Exact_lookup.
  destruct (zip_marks word guess Hlen) as (_ & -> & _).
  apply pass1_marks_Exact.
Qed.

Lemma pair_of_lookup_Exact (marks : list mark) (i : nat) :
  (pair_of <$> marks) !! i = Some _EXACT_PAIR <-> marks !! i = Some Exact.
Proof.
  rewrite list_lookup_fmap. destruct (marks !! i) as [m|]; simpl; [|done].
  split; [intros [= H%pair_of_Exact]; by subst | by intros [= ->]].
Qed.

(** A position is painted exact exactly when the guess and the secret hold
    the same letter there. *)
Theorem score_exact_positions (n : Z) (word guess : pystr) (i : nat) :
  Z.of_nat (length word) = n -> Z.of_nat (length guess) = n ->
  exists ps : list Z,
    score n word guess = ret ps /\
    (ps !! i = Some _EXACT_PAIR <->
     exists c, guess !! i = Some c /\ word !! i = Some c).
Proof.
  intros Hw Hg. exists (pair_of <$> Score word guess). split.
  - by apply score_refines.
  - rewrite pair_of_lookup_Exact. apply Score_Exact_lookup. lia.
Qed.

Lemma score_exact_positions_witness :
  exists ps : list Z,
    score 5 (py "ALLOY") (py "LOLLY") = ret ps /\
    (ps !! 2%nat = Some _EXACT_PAIR <->
     exists c, py "LOLLY" !! 2%nat = Some c /\ py "ALLOY" !! 2%nat = Some c).
Proof.
  apply (score_exact_positions 5 (py "ALLOY") (py "LOLLY") 2); reflexivity.
Defined.

Lemma pass2_all_Exact (todo : list (char * mark))
  (working : list (option char)) :
  Forall (fun m => m = Exact) (pass2 working todo) <->
  Forall (fun m => m = Exact) todo.*2.
Proof.
  revert working. induction todo as [|[g m] todo IH]; intros working;
    csimpl; [done|].
  destruct (decide (m = Exact)) as [->|Hm].
  - rewrite !Forall_cons. by rewrite IH.
  - destruct (list_index (Some g) working); rewrite !Forall_cons;
      split; intros [? _]; done.
Qed.

Lemma pass1_all_Exact (word guess : pystr) :
  length word = length guess ->
  Forall (fun m => m = Exact) (pass1_marks word guess) <-> guess = word.
Proof.
  unfold pass1_marks. revert guess.
  induction word as [|w word IH]; intros [|g guess]; csimpl; try done.
  intros [= Hlen]. rewrite Forall_cons, (IH guess Hlen).
  destruct (decide (g = w)) as [->|Hne]; split.
  - by intros [_ ->].
  - by intros [= ->].
  - by intros [? _].
  - by intros [= ? ?].
Qed.

(** The test [all((p == self._EXACT_PAIR) for p in pairs)]. *)
Lemma all_exact_Forall (marks : list mark) :
  forallb (fun p => bool_decide (p = _EXACT_PAIR)) (pair_of <$> marks) = true
  <-> Forall (fun m => m = Exact) marks.
Proof.
  induction marks as [|m marks IH]; csimpl; [done|].
  rewrite andb_true_iff, Forall_cons, IH, bool_decide_eq_true, pair_of_Exact.
  done.
Qed.

Lemma Score_all_Exact (word guess : pystr) :
  length word = length guess ->
  forallb (fun p => bool_decide (p = _EXACT_PAIR)) (pair_of <$> Score word guess)
  = true <-> guess = word.
Proof.
  intros Hlen. rewrite all_exact_Forall. unfold Score. rewrite pass2_all_Exact.
  destruct (zip_marks word guess Hlen) as (_ & -> & _).
  by apply pass1_all_Exact.
Qed.

(** The round's winning test holds exactly when the guess is the secret. *)
Theorem score_all_exact_iff_secret (n : Z) (word guess : pystr) :
  Z.of_nat (length word) = n -> Z.of_nat (length guess) = n ->
  exists ps : list Z,
    score n word guess = ret ps /\
    (forallb (fun p => bool_decide (p = _EXACT_PAIR)) ps = true
     <-> guess = word).
Proof.
  intros Hw Hg. exists (pair_of <$> Score word guess). split.
  - by apply score_refines.
  - apply Score_all_Exact. lia.
Qed.

Lemma score_all_exact_iff_secret_witness :
  exists ps : list Z,
    score 5 (py "HOUSE") (py "HORSE") = ret ps /\
    (forallb (fun p => bool_decide (p = _EXACT_PAIR)) ps = true
     <-> py "HORSE" = py "HOUSE").
Proof.
  apply (score_all_exact_iff_secret 5 (py "HOUSE") (py "HORSE")); reflexivity.
Defined.

Lemma list_index_None_occurrences {A} `{EqDecision A} (x : A) (l : list A) :
  list_index x l = None -> occurrences x l = 0%nat.
Proof.
  unfold occurrences. induction l as [|y l IH]; csimpl; [done|].
  destruct (decide (y = x)); [done|].
  destruct (list_index x l); [done|]. intros _.
  rewrite filter_cons, decide_False by done. by apply IH.
Qed.

Lemma credited_le_occurrences (c : char) (guess : pystr) (ps : list Z) :
  (credited c guess ps <= occurrences c guess)%nat.
Proof.
  unfold credited, occurrences. revert ps.
  induction guess as [|g guess IH]; intros [|p ps]; csimpl; try lia.
  specialize (IH ps). tally.
Qed.

(** Pass 2 credits [c] as often as the guess holds it, up to what pass 1
    credited plus what the working copy still holds. *)
Lemma pass2_credit_eq (c : char) (todo : list (char * mark))
  (working : list (option char)) :
  Forall (fun gm => gm.2 <> Partial) todo ->
  credited c (todo.*1) (pair_of <$> pass2 working todo)
  = (occurrences c (todo.*1)
     `min` (credited c (todo.*1) (pair_of <$> todo.*2)
            + occurrences (Some c) working))%nat.
Proof.
  revert working.
  induction todo as [|[g m] todo IH]; intros working Hnp; csimpl; [done|].
  apply Forall_cons in Hnp as [Hm Hnp]. simpl in Hm.
  pose proof (credited_le_occurrences c (todo.*1) (pair_of <$> todo.*2)) as Hle.
  destruct m; [| done |]; csimpl.
  - destruct (list_index (Some g) working) as [j|] eqn:Hj; csimpl.
    + apply list_index_Some in Hj.
      pose proof (occurrences_blank working j g c Hj) as Hb.
      specialize (IH (<[ j := None ]> working) Hnp).
      unfold credited, occurrences in *. tally.
    + specialize (IH working Hnp).
      pose proof (list_index_None_occurrences _ _ Hj) as H0.
      unfold credited, occurrences in *.
      destruct (decide (g = c)) as [->|Hgc]; tally.
  - specialize (IH working Hnp). unfold credited, occurrences in *. tally.
Qed.

(** After pass 1 the exact marks for [c] and the copies of [c] left in the
    working copy make up the occurrences of [c] in the secret. *)
Lemma pass1_credit_eq (c : char) (word guess : pystr) :
  length word = length guess ->
  (credited c guess (pair_of <$> pass1_marks word guess)
   + occurrences (Some c) (pass1_working word guess)
   = occurrences c word)%nat.
Proof.
  unfold credited, occurrences, pass1_marks, pass1_working.
  revert guess. induction word as [|w word IH]; intros [|g guess]; csimpl;
    try done.
  intros [= Hlen]. specialize (IH guess Hlen).
  destruct (decide (g = w)) as [->|Hne]; tally.
Qed.

(** The marks a letter earns are the smaller of its number of occurrences
    in the guess and in the secret. *)
Theorem score_credit_exact (n : Z) (word guess : pystr) (c : char) :
  Z.of_nat (length word) = n -> Z.of_nat (length guess) = n ->
  exists ps : list Z,
    score n word guess = ret ps /\
    credited c guess ps
    = (occurrences c guess `min` occurrences c word)%nat.
Proof.
  intros Hw Hg. exists (pair_of <$> Score word guess). split.
  - by apply score_refines.
  - assert (Hlen : length word = length guess) by lia.
    unfold Score. destruct (zip_marks word guess Hlen) as (H1 & H2 & _).
    pose proof (pass2_credit_eq c (zip guess (pass1_marks word guess))
                  (pass1_working word guess)
                  (pass1_marks_not_Partial word guess)) as HC.
    rewrite H1, H2 in HC. rewrite HC.
    by rewrite (pass1_credit_eq c word guess Hlen).
Qed.

Lemma score_credit_exact_witness :
  exists ps : list Z,
    score 5 (py "ALLOY") (py "LOLLY") = ret ps /\
    credited 76%Z (py "LOLLY") ps
    = (occurrences 76%Z (py "LOLLY") `min` occurrences 76%Z (py "ALLOY"))%nat.
Proof.
  apply (score_credit_exact 5 (py "ALLOY") (py "LOLLY") 76); reflexivity.
Defined.

End scorer_more.

(** ** The info letters: which letters have a status *)

Section info_more.

Import Scorer ScorerSpec Info.

Lemma remember_known (info : gmap char Z) (g c : char) (p : Z) :
  is_mark p ->
  is_Some (remember info g p !! c) <-> is_Some (info !! c) \/ g = c.
Proof.
  intros Hp. destruct (decide (g = c)) as [->|Hne].
  - split; [by right | intros _; by apply remember_is_Some].
  - unfold remember. destruct (improves info g p);
      [rewrite lookup_insert_ne by done|]; naive_solver.
Qed.

Lemma painted_known (todo : list (char * Z)) (info : gmap char Z) (c : char) :
  Forall (fun gp => is_mark gp.2) todo ->
  is_Some (painted info todo !! c) <-> is_Some (info !! c) \/ c ∈ todo.*1.
Proof.
  revert info. induction todo as [|[g p] todo IH]; intros info Hm; csimpl.
  - rewrite elem_of_nil. naive_solver.
  - apply Forall_cons in Hm as [Hgp Hm]. simpl in Hgp.
    unfold painted in IH. rewrite (IH _ Hm), (remember_known _ _ _ _ Hgp).
    rewrite elem_of_cons. naive_solver.
Qed.

Lemma round_info_known (n : Z) (word : pystr) (guesses : list pystr)
  (info0 : gmap char Z) :
  Z.of_nat (length word) = n ->
  Forall (fun g => Z.of_nat (length g) = n) guesses ->
  exists info,
    for_each (scored_guess n word) guesses info0 = ret info /\
    forall c, is_Some (info !! c) <->
              is_Some (info0 !! c) \/ exists g, g ∈ guesses /\ c ∈ g.
Proof.
  intros Hw. revert info0.
  induction guesses as [|g guesses IH]; intros info0 Hgs; simpl.
  - exists info0. split; [done|]. intros c. split; [by left|].
    intros [?|(g & Hg & _)]; [done | by apply not_elem_of_nil in Hg].
  - apply Forall_cons in Hgs as [Hg Hgs].
    rewrite (scored_guess_painted n word g info0 Hw Hg). simpl.
    destruct (IH (painted info0 (zip g (pair_of <$> Score word g))) Hgs)
      as (info & Hrun & Hchar).
    exists info. split; [done|]. intros c. rewrite Hchar, painted_known.
    + rewrite fst_zip by (rewrite length_fmap, length_Score; lia).
      setoid_rewrite elem_of_cons. naive_solver.
    + apply Forall_forall. intros [c' p] Hin%elem_of_zip_r.
      pose proof (Score_is_mark word g) as HF.
      rewrite Forall_forall in HF. by apply HF.
Qed.

(** After the guesses of a round, the letters that have a status are the
    letters that were guessed: each of them can be looked up, no other
    letter has an entry. *)
Theorem info_letters_are_guessed (n : Z) (word : pystr)
  (guesses : list pystr) :
  Z.of_nat (length word) = n ->
  Forall (fun g => Z.of_nat (length g) = n) guesses ->
  exists info,
    round_info n word guesses = ret info /\
    forall c, is_Some (info !! c) <-> exists g, g ∈ guesses /\ c ∈ g.
Proof.
  intros Hw Hgs.
  destruct (round_info_known n word guesses ∅ Hw Hgs) as (info & Hrun & Hchar).
  exists info. split; [done|]. intros c. rewrite Hchar, lookup_empty.
  split; [intros [[? [=]]|?]; done | by right].
Qed.

Lemma info_letters_are_guessed_witness :
  exists info,
    round_info 5 (py "ALLOY") [py "LOLLY"; py "ATOLL"] = ret info /\
    forall c, is_Some (info !! c) <->
              exists g, g ∈ [py "LOLLY"; py "ATOLL"] /\ c ∈ g.
Proof.
  apply (info_letters_are_guessed 5 (py "ALLOY") [py "LOLLY"; py "ATOLL"]).
  - reflexivity.
  - repeat constructor.
Defined.

End info_more.

(** ** The loader: what a loaded game holds *)

Section loader_more.

Import Loader.

Variable bytes_decode : pybytes -> option pystr.
Variable str_strip : pystr -> pystr.
Variable str_upper : pystr -> pystr.
Variable str_isalpha : pystr -> bool.

Abbreviation _rot13upper := (Loader._rot13upper str_upper).
Abbreviation wanted := (Loader.wanted str_upper str_isalpha).
Abbreviation load_line :=
  (Loader.load_line bytes_decode str_strip str_upper str_isalpha).
Abbreviation load_pass :=
  (Loader.load_pass bytes_decode str_strip str_upper str_isalpha).
Abbreviation __init__ :=
  (Loader.__init__ bytes_decode str_strip str_upper str_isalpha).

(** One line, with the letters: nothing but the set of all words changes,
    or the line's word passes the test and joins the pool with its
    letters. *)
Lemma load_line_cases (length : Z) (accented : bool) (line : pybytes)
  (self self' : loader) :
  load_line length accented line self = ret self' ->
  exists WORD : pystr,
    _all_words self' = {[ WORD ]} ∪ _all_words self /\
    (_words self' = _words self /\ _letters self' = _letters self \/
     _words self' = _words self ++ [WORD] /\
     _letters self' = _letters self ∪ list_to_set WORD /\
     wanted (_all_words self') length accented WORD = true).
Proof.
  unfold Loader.load_line.
  destruct (match bytes_decode line with
            | Some decoded => Some decoded
            | None => word self
            end) as [word0|]; [|done].
  destruct (capitalised (str_strip word0)).
  - intros [= <-]. simpl. eauto 6.
  - destruct (Loader.wanted _ _ _ _ _ _) eqn:Hw; intros [= <-]; simpl;
      eauto 8.
Qed.

Lemma wanted_shape all_words length accented w :
  wanted all_words length accented w = true ->
  Z.of_nat (List.length w) = length /\
  str_isalpha w = true /\
  (accented = false -> forallb ascii_capital w = true).
Proof.
  unfold Loader.wanted. rewrite !andb_true_iff.
  intros [[[[[[[_ Ha] Hl] Hc] _] _] _] _].
  apply bool_decide_eq_true in Hl. split_and!; [done..|].
  intros ->. by destruct (forallb ascii_capital w).
Qed.

(** Every word of a loaded pool has the word length, is alphabetic, and
    is made of the letters A to Z unless accented words were asked for. *)
Theorem pool_words_shape (length : Z) (accented : bool)
  (lines : list pybytes) (game : loader) (w : pystr) :
  __init__ length accented lines = ret game ->
  w ∈ _words game ->
  Z.of_nat (List.length w) = length /\
  str_isalpha w = true /\
  (accented = false -> forallb ascii_capital w = true).
Proof.
  intros [Hp _]%init_loaded. revert w.
  eapply (for_each_invariant
            (fun self => forall w, w ∈ _words self ->
               Z.of_nat (List.length w) = length /\
               str_isalpha w = true /\
               (accented = false -> forallb ascii_capital w = true)));
    [| |exact Hp].
  - intros line t t' Hinv (WORD & _ & Hc)%load_line_cases w.
    destruct Hc as [[-> _] | (-> & _ & Hwanted)]; [apply Hinv|].
    intros [Hin | ->%list_elem_of_singleton]%elem_of_app; [by apply Hinv|].
    by eapply wanted_shape.
  - intros v Hv. by apply not_elem_of_nil in Hv.
Qed.

(** The letters the game accepts from the keyboard are the letters of the
    pool's words, no more and no fewer. *)
Theorem letters_are_pool_letters (length : Z) (accented : bool)
  (lines : list pybytes) (game : loader) (c : char) :
  __init__ length accented lines = ret game ->
  c ∈ _letters game <-> exists w, w ∈ _words game /\ c ∈ w.
Proof.
  intros [Hp _]%init_loaded. revert c.
  eapply (for_each_invariant
            (fun self => forall c, c ∈ _letters self <->
                                   exists w, w ∈ _words self /\ c ∈ w));
    [| |exact Hp].
  - intros line t t' Hinv (WORD & _ & Hc)%load_line_cases c.
    destruct Hc as [[-> ->] | (-> & -> & _)]; [apply Hinv|].
    rewrite elem_of_union, Hinv, elem_of_list_to_set. split.
    + intros [(w & Hw & Hcw) | Hcw].
      * exists w. split; [|done]. apply elem_of_app. by left.
      * exists WORD. split; [|done]. apply elem_of_app. right.
        by apply list_elem_of_singleton.
    + intros (w & [Hw | ->%list_elem_of_singleton]%elem_of_app & Hcw);
        [left; eauto | by right].
  - intros c. split.
    + by intros H%not_elem_of_empty.
    + intros (w & Hw & _). by apply not_elem_of_nil in Hw.
Qed.

(** The pass ends early exactly when the first line of the file does not
    decode, and then with [UnboundLocalError]. *)
Theorem load_pass_raises_iff (length : Z) (accented : bool)
  (lines : list pybytes) (e : exn) :
  load_pass length accented lines = raise e <->
  e = UnboundLocalError /\
  exists line rest, lines = line :: rest /\ bytes_decode line = None.
Proof.
  split.
  - intros Hr. pose proof Hr as [-> _]%load_lines_raise. split; [done|].
    unfold Loader.load_pass in Hr. destruct lines as [|line rest]; [done|].
    exists line, rest. split; [done|]. simpl in Hr.
    destruct (load_line length accented line fresh) as [e'|self'] eqn:Hl.
    + by apply load_line_raise in Hl as (_ & ? & _).
    + simpl in Hr. apply load_lines_raise in Hr as [_ Hr].
      apply load_line_step in Hl as (_ & _ & [w Hw] & _). congruence.
  - intros (-> & line & rest & -> & Hd).
    by apply load_pass_undecodable_first.
Qed.

(** Reading on never takes back what was read: the pool only grows at its
    end, the set of all words and the letters only grow. *)
Theorem load_pass_grows (length : Z) (accented : bool)
  (pre post : list pybytes) (seen self : loader) :
  load_pass length accented pre = ret seen ->
  load_pass length accented (pre ++ post) = ret self ->
  _words seen `prefix_of` _words self /\
  _all_words seen ⊆ _all_words self /\
  _letters seen ⊆ _letters self.
Proof.
  intros Hpre Hp. unfold Loader.load_pass in *.
  rewrite for_each_app, Hpre in Hp. simpl in Hp.
  eapply (for_each_invariant
            (fun t => _words seen `prefix_of` _words t /\
                      _all_words seen ⊆ _all_words t /\
                      _letters seen ⊆ _letters t));
    [| |exact Hp].
  - intros line t t' (Hw & Ha & Hl) (WORD & HA & Hc)%load_line_cases.
    rewrite HA. destruct Hc as [[-> ->] | (-> & -> & _)].
    + split_and!; [done | set_solver | done].
    + split_and!; [by apply prefix_app_r | set_solver | set_solver].
  - done.
Qed.

(** The pool of a loaded game is never empty. *)
Lemma init_pool_nonempty (length : Z) (accented : bool)
  (lines : list pybytes) (game : loader) :
  __init__ length accented lines = ret game -> _words game <> [].
Proof. by intros [_ H]%init_loaded. Qed.

(** When no word read has the word length, [__init__] raises
    [ValueError]. *)
Theorem no_word_of_length_fails (length : Z) (accented : bool)
  (lines : list pybytes) (self : loader) :
  load_pass length accented lines = ret self ->
  (forall w, w ∈ _all_words self -> Z.of_nat (List.length w) <> length) ->
  __init__ length accented lines = raise ValueError.
Proof.
  intros Hp Hnone.
  assert (Hinv : forall w, w ∈ _words self ->
                   w ∈ _all_words self /\ Z.of_nat (List.length w) = length).
  { eapply (for_each_invariant
              (fun t => forall w, w ∈ _words t ->
                 w ∈ _all_words t /\ Z.of_nat (List.length w) = length));
      [| |exact Hp].
    - intros line t t' Hinv (WORD & HA & Hc)%load_line_cases w. rewrite HA.
      destruct Hc as [[-> _] | (-> & _ & Hwanted)].
      + intros [? ?]%Hinv. split; [set_solver | done].
      + intros [[? ?]%Hinv | ->%list_elem_of_singleton]%elem_of_app.
        * split; [set_solver | done].
        * split; [set_solver|]. by eapply wanted_shape.
    - intros v Hv. by apply not_elem_of_nil in Hv. }
  unfold Loader.__init__. rewrite Hp. simpl.
  destruct (_words self) as [|w ws] eqn:Hws; [done|].
  destruct (Hinv w) as [Hin Hlen]; [left|]. by apply Hnone in Hin.
Qed.

(** What holds of a word of a loaded pool, in one invariant of the pass. *)
Lemma loaded_word (length : Z) (accented : bool) (lines : list pybytes)
  (game : loader) (w : pystr) :
  __init__ length accented lines = ret game ->
  w ∈ _words game ->
  Z.of_nat (List.length w) = length /\
  (accented = false -> forallb ascii_capital w = true) /\
  w ∈ _all_words game /\
  (forall c, c ∈ w -> c ∈ _letters game).
Proof.
  intros [Hp _]%init_loaded. revert w.
  eapply (for_each_invariant
            (fun self => forall w, w ∈ _words self ->
               Z.of_nat (List.length w) = length /\
               (accented = false -> forallb ascii_capital w = true) /\
               w ∈ _all_words self /\
               (forall c, c ∈ w -> c ∈ _letters self)));
    [| |exact Hp].
  - intros line t t' Hinv (WORD & HA & Hc)%load_line_cases w. rewrite HA.
    destruct Hc as [[-> ->] | (-> & -> & Hwanted)].
    + intros (? & ? & ? & ?)%Hinv. split_and!; [done | done | set_solver | done].
    + intros [(? & ? & ? & Hl)%Hinv | ->%list_elem_of_singleton]%elem_of_app.
      * split_and!; [done | done | set_solver |].
        intros c Hc. apply elem_of_union. left. by apply Hl.
      * apply wanted_shape in Hwanted as (? & _ & ?).
        split_and!; [done | done | set_solver |].
        intros c Hc. apply elem_of_union. right. by apply elem_of_list_to_set.
  - intros v Hv. by apply not_elem_of_nil in Hv.
Qed.

Lemma wanted_suffixes all_words length accented w :
  wanted all_words length accented w = true ->
  ~ (last_chars 2 w ∈ py <$> ["ED"; "ER"; "ES"; "LY"]%string /\
     drop_last 2 w ∈ all_words) /\
  ~ (last_chars 3 w ∈ py <$> ["IES"; "IED"; "IER"; "ING"]%string /\
     drop_last 3 w ++ py "Y" ∈ all_words) /\
  ~ (last_chars 3 w = py "ING" /\
     (drop_last 3 w ∈ all_words \/ drop_last 3 w ++ py "E" ∈ all_words)).
Proof.
  unfold Loader.wanted. rewrite !andb_true_iff.
  intros [[[_ H2] H3] H4].
  rewrite negb_true_iff, andb_false_iff, !bool_decide_eq_false in H2.
  rewrite negb_true_iff, andb_false_iff, !bool_decide_eq_false in H3.
  rewrite negb_true_iff, andb_false_iff, orb_false_iff,
    !bool_decide_eq_false in H4.
  split_and!; intros [? ?]; naive_solver.
Qed.

(** The three longer suffix rules look, like the rule for a final letter,
    at the words read so far: once the base form a rule asks for has been
    read while the word is not in the pool, the word is not loaded. *)
Theorem suffix_rules_on_words_read (length : Z) (accented : bool)
  (pre post : list pybytes) (seen game : loader) (w : pystr) :
  load_pass length accented pre = ret seen ->
  __init__ length accented (pre ++ post) = ret game ->
  (last_chars 2 w ∈ py <$> ["ED"; "ER"; "ES"; "LY"]%string /\
   drop_last 2 w ∈ _all_words seen) \/
  (last_chars 3 w ∈ py <$> ["IES"; "IED"; "IER"; "ING"]%string /\
   drop_last 3 w ++ py "Y" ∈ _all_words seen) \/
  (last_chars 3 w = py "ING" /\
   (drop_last 3 w ∈ _all_words seen \/
    drop_last 3 w ++ py "E" ∈ _all_words seen)) ->
  w ∉ _words seen ->
  w ∉ _words game.
Proof.
  intros Hpre [Hp _]%init_loaded Hrule Hout.
  unfold Loader.load_pass in *. rewrite for_each_app, Hpre in Hp. simpl in Hp.
  eapply (for_each_invariant
            (fun t => _all_words seen ⊆ _all_words t /\ w ∉ _words t));
    [| |exact Hp].
  - intros line t t' [Hsub Hw] (WORD & HA & Hc)%load_line_cases.
    assert (Hsub' : _all_words seen ⊆ _all_words t') by set_solver.
    split; [done|].
    destruct Hc as [[-> _] | (-> & _ & Hwanted)]; [done|].
    intros [Hin | ->%list_elem_of_singleton]%elem_of_app; [done|].
    apply wanted_suffixes in Hwanted as (N2 & N3 & N4).
    destruct Hrule as [[? ?] | [[? ?] | [? [?|?]]]].
    + apply N2. split; [done | by apply Hsub'].
    + apply N3. split; [done | by apply Hsub'].
    + apply N4. split; [done | left; by apply Hsub'].
    + apply N4. split; [done | right; by apply Hsub'].
  - done.
Qed.

Lemma load_line_decoded (length : Z) (accented : bool) (line : pybytes)
  (decoded : pystr) (self : loader) :
  bytes_decode line = Some decoded ->
  exists self',
    load_line length accented line self = ret self' /\
    _all_words self'
    = {[ str_upper (str_strip decoded) ]} ∪ _all_words self.
Proof.
  intros Hd. unfold Loader.load_line. rewrite Hd.
  destruct (capitalised _); [eauto|].
  destruct (Loader.wanted _ _ _ _ _ _); eauto.
Qed.

Lemma load_lines_decoded (length : Z) (accented : bool)
  (lines : list pybytes) (self : loader) :
  Forall (fun line => is_Some (bytes_decode line)) lines ->
  exists self',
    for_each (load_line length accented) lines self = ret self' /\
    forall w, w ∈ _all_words self' <->
      w ∈ _all_words self \/
      exists line decoded,
        line ∈ lines /\ bytes_decode line = Some decoded /\
        w = str_upper (str_strip decoded).
Proof.
  revert self. induction lines as [|line lines IH]; intros self Hall.
  - exists self. split; [done|]. intros w. split; [by left|].
    intros [?|(l & d & Hin & _)]; [done | by apply not_elem_of_nil in Hin].
  - apply Forall_cons in Hall as [[decoded Hd] Hall].
    destruct (load_line_decoded length accented line decoded self Hd)
      as (self1 & Hl & HA).
    destruct (IH self1 Hall) as (self' & Hrun & Hchar).
    exists self'. simpl. rewrite Hl. simpl. split; [done|].
    intros w. rewrite Hchar, HA, elem_of_union, elem_of_singleton. split.
    + intros [[-> | ?] | (l & d & Hin & Hdl & ->)].
      * right. exists line, decoded. split_and!; [left | done..].
      * by left.
      * right. exists l, d. split_and!; [by right | done..].
    + intros [? | (l & d & [-> | Hin]%elem_of_cons & Hdl & ->)].
      * left. by right.
      * left. left. congruence.
      * right. eauto.
Qed.

(** On a file whose lines all decode the pass runs to the end, and the
    set of all words is the set of the lines, each stripped and put in
    upper case. *)
Theorem all_words_are_the_lines (length : Z) (accented : bool)
  (lines : list pybytes) :
  Forall (fun line => is_Some (bytes_decode line)) lines ->
  exists self,
    load_pass length accented lines = ret self /\
    forall w, w ∈ _all_words self <->
      exists line decoded,
        line ∈ lines /\ bytes_decode line = Some decoded /\
        w = str_upper (str_strip decoded).
Proof.
  intros Hall.
  destruct (load_lines_decoded length accented lines fresh Hall)
    as (self & Hrun & Hchar).
  exists self. split; [done|]. intros w. rewrite Hchar. split; [|eauto].
  intros [H%not_elem_of_empty | ?]; done.
Qed.

End loader_more.

(** ** [_rot13upper] *)

Section rot13_facts.

Import Loader.

Variable str_upper : pystr -> pystr.

Lemma rot13upper_range (word : pystr) :
  Forall (fun c => 65 <= c <= 90) (_rot13upper str_upper word).
Proof.
  unfold _rot13upper. apply Forall_fmap, Forall_true. intros c. simpl.
  pose proof (Z.mod_pos_bound (c - 65 + 13) 26). lia.
Qed.

(** Whatever the word, [_rot13upper] gives one letter of A to Z for each
    character of the word in upper case: the argument of [chr] is always
    in 65..90, so [chr] cannot raise. *)
Theorem rot13upper_capitals (word : pystr) :
  List.length (_rot13upper str_upper word) = List.length (str_upper word) /\
  Forall (fun c => 65 <= c <= 90) (_rot13upper str_upper word).
Proof.
  split; [apply length_fmap | apply rot13upper_range].
Qed.

End rot13_facts.

Section rot13_cpython.

Import Loader CPython.

Lemma ascii_capital_bounds (c : char) :
  ascii_capital c = true <-> 65 <= c <= 90.
Proof.
  unfold ascii_capital. rewrite andb_true_iff, !bool_decide_eq_true. lia.
Qed.

Lemma upper_char_capital (c : char) : 65 <= c <= 90 -> upper_char c = [c].
Proof.
  intros Hc. unfold upper_char, between.
  repeat match goal with
         | |- context [?a <=? ?b] =>
             destruct (Z.leb_spec a b); simpl; try lia
         | |- context [?a =? ?b] =>
             destruct (Z.eqb_spec a b); simpl; try lia
         end; done.
Qed.

Lemma str_upper_capitals (s : pystr) :
  Forall (fun c => 65 <= c <= 90) s -> str_upper s = s.
Proof.
  unfold str_upper. induction 1 as [|c s Hc _ IH]; csimpl; [done|].
  by rewrite upper_char_capital, IH.
Qed.

Lemma rot13_twice (c : Z) :
  65 <= c <= 90 ->
  ((c - 65 + 13) `mod` 26 + 65 - 65 + 13) `mod` 26 + 65 = c.
Proof. intros Hc. Z.div_mod_to_equations. lia. Qed.

Lemma rot13_map_twice (s : pystr) :
  Forall (fun c => 65 <= c <= 90) s ->
  (fun c => (c - 65 + 13) `mod` 26 + 65)
    <$> ((fun c => (c - 65 + 13) `mod` 26 + 65) <$> s) = s.
Proof.
  induction 1 as [|c s Hc _ IH]; csimpl; [done|].
  rewrite IH. f_equal. by apply rot13_twice.
Qed.

(** On a word of the letters A to Z, [_rot13upper] undoes itself: the
    blocklist the source spells rotated reads back as the words meant. *)
Theorem rot13upper_involutive (s : pystr) :
  forallb ascii_capital s = true ->
  _rot13upper str_upper (_rot13upper str_upper s) = s.
Proof.
  intros Hs. assert (Hcap : Forall (fun c => 65 <= c <= 90) s).
  { apply Forall_forall. intros c Hc. apply ascii_capital_bounds.
    rewrite forallb_forall in Hs. by apply Hs, list_elem_of_In. }
  pose proof (rot13upper_range str_upper s) as Hrot.
  unfold _rot13upper in *.
  rewrite (str_upper_capitals _ Hrot), (str_upper_capitals _ Hcap).
  by apply rot13_map_twice.
Qed.

Lemma rot13upper_involutive_witness :
  _rot13upper str_upper (_rot13upper str_upper (py "PBBA")) = py "PBBA".
Proof. apply (rot13upper_involutive (py "PBBA")). reflexivity. Defined.

End rot13_cpython.

(** ** The further loader properties on word files *)

Section loader_more_runs.

Import Loader CPython Samples MoreSamples.

Ltac run :=
  match goal with
  | |- ?P => apply (bool_decide_unpack P); vm_compute; exact I
  end.

Lemma pool_words_shape_witness :
  Z.of_nat (List.length (py "TREE")) = 4 /\
  str_isalpha (py "TREE") = true /\
  (false = false -> forallb ascii_capital (py "TREE") = true).
Proof.
  apply (pool_words_shape bytes_decode str_strip str_upper str_isalpha
           4 false (cat ++ cats_tree) cat_cats_tree_game (py "TREE")).
  - vm_compute. reflexivity.
  - run.
Defined.

Lemma letters_are_pool_letters_witness :
  84 ∈ _letters cat_cats_tree_game <->
  exists w, w ∈ _words cat_cats_tree_game /\ 84 ∈ w.
Proof.
  apply (letters_are_pool_letters bytes_decode str_strip str_upper
           str_isalpha 4 false (cat ++ cats_tree) cat_cats_tree_game 84).
  vm_compute. reflexivity.
Defined.

Lemma load_pass_grows_witness :
  _words cat_seen `prefix_of` _words cat_cats_tree_game /\
  _all_words cat_seen ⊆ _all_words cat_cats_tree_game /\
  _letters cat_seen ⊆ _letters cat_cats_tree_game.
Proof.
  apply (load_pass_grows bytes_decode str_strip str_upper str_isalpha
           4 false cat cats_tree cat_seen cat_cats_tree_game).
  - vm_compute. reflexivity.
  - vm_compute. reflexivity.
Defined.

Lemma no_word_of_length_fails_witness :
  CPython.__init__ 4 false cat = raise ValueError.
Proof.
  apply (no_word_of_length_fails bytes_decode str_strip str_upper
           str_isalpha 4 false cat cat_seen).
  - vm_compute. reflexivity.
  - change (set_Forall (fun w : pystr => Z.of_nat (List.length w) <> 4)
                       (_all_words cat_seen)).
    run.
Defined.

Lemma suffix_rules_on_words_read_witness :
  py "WALKED" ∉ _words walk_game.
Proof.
  apply (suffix_rules_on_words_read bytes_decode str_strip str_upper
           str_isalpha 6 false walk walked_engine walk_seen walk_game
           (py "WALKED")).
  - vm_compute. reflexivity.
  - vm_compute. reflexivity.
  - left. split; run.
  - run.
Defined.

Lemma all_words_are_the_lines_witness :
  exists self,
    CPython.load_pass 4 false (cat ++ cats_tree) = ret self /\
    forall w, w ∈ _all_words self <->
      exists line decoded,
        line ∈ cat ++ cats_tree /\ bytes_decode line = Some decoded /\
        w = str_upper (str_strip decoded).
Proof.
  apply (all_words_are_the_lines bytes_decode str_strip str_upper
           str_isalpha 4 false (cat ++ cats_tree)).
  run.
Defined.

End loader_more_runs.

(** ** A round *)

Section round_facts.

Import Scorer ScorerSpec Info Round.

Variable str_upper : pystr -> pystr.
Variable str_isalpha : pystr -> bool.
Variables KEY_BACKSPACE KEY_DC KEY_ENTER : Z.
Variables _length _tries : Z.
Variable _letters : gset char.
Variable _all_words : gset pystr.
Variable word : pystr.

Abbreviation handle_key :=
  (Round.handle_key str_upper str_isalpha KEY_BACKSPACE KEY_DC KEY_ENTER
     _length _letters _all_words word).
Abbreviation play_keys :=
  (Round.play_keys str_upper str_isalpha KEY_BACKSPACE KEY_DC KEY_ENTER
     _length _tries _letters _all_words word).
Abbreviation _play_round :=
  (Round._play_round str_upper str_isalpha KEY_BACKSPACE KEY_DC KEY_ENTER
     _length _tries _letters _all_words word).
Abbreviation tidy := (Round.tidy _length _letters).
Abbreviation typable :=
  (Round.typable str_upper str_isalpha KEY_BACKSPACE KEY_DC _letters).
Abbreviation opening := (Round.opening _length).

Hypothesis word_length : Z.of_nat (length word) = _length.

Lemma setitem_int_nat {A} (l : list A) (i : Z) (x : A) :
  0 <= i < Z.of_nat (length l) ->
  setitem_int l i x = ret (<[ Z.to_nat i := x ]> l).
Proof.
  intros Hi. unfold setitem_int.
  rewrite (decide_False (P := i < 0)) by lia. by rewrite decide_True by lia.
Qed.

(** The scoring and painting of a full buffer. *)
Lemma scored_block (g : pystr) (info : gmap char Z) :
  Z.of_nat (length g) = _length ->
  score _length word g = ret (pair_of <$> Score word g) /\
  for_each (paint_step g (pair_of <$> Score word g)) (range _length) info
  = ret (painted info (zip g (pair_of <$> Score word g))).
Proof.
  intros Hg. split; [by apply score_refines|].
  pose proof (scored_guess_painted _length word g info word_length Hg) as H.
  unfold scored_guess in H.
  by rewrite (score_refines _length word g word_length Hg) in H.
Qed.

Lemma zip_Score_marks (g : pystr) :
  Forall (fun gp : char * Z => is_mark gp.2) (zip g (pair_of <$> Score word g)).
Proof.
  apply Forall_forall. intros [c p] Hin%elem_of_zip_r.
  pose proof (Score_is_mark word g) as HF.
  rewrite Forall_forall in HF. by apply HF.
Qed.

Lemma tidy_opening : tidy opening.
Proof.
  unfold Round.tidy, Round.opening. simpl. split_and!; try lia.
  - rewrite length_replicate. lia.
  - intros i c [-> _]%lookup_replicate. by rewrite decide_False by lia.
  - intros c p. by rewrite lookup_empty.
Qed.

(** Writing the cell at the cursor, or the cell before it, keeps the shape
    of the buffer. *)
Lemma tidy_write (g : list char) (k : nat) (x : Z) (c : char) :
  (forall (i : nat) (d : char), g !! i = Some d ->
     if decide (Z.of_nat i < x) then d ∈ _letters else d = _EMPTY) ->
  forall x' : Z,
    (x' = Z.of_nat k + 1 /\ x = Z.of_nat k /\ c ∈ _letters) \/
    (x' = Z.of_nat k /\ x = Z.of_nat k + 1 /\ c = _EMPTY) ->
    forall (i : nat) (d : char), <[ k := c ]> g !! i = Some d ->
      if decide (Z.of_nat i < x') then d ∈ _letters else d = _EMPTY.
Proof.
  intros Hg x' Hx i d Hi.
  destruct (decide (i = k)) as [->|Hne].
  - apply list_lookup_insert_Some in Hi as [(_ & -> & _) | [? _]]; [|done].
    destruct Hx as [(-> & _ & ?) | (-> & _ & ->)].
    + by rewrite decide_True by lia.
    + by rewrite decide_False by lia.
  - rewrite list_lookup_insert_ne in Hi by congruence.
    specialize (Hg i d Hi).
    destruct Hx as [(-> & -> & _) | (-> & -> & _)];
      repeat case_decide; try done; lia.
Qed.

(** One key keeps the locals in shape and raises nothing. *)
Lemma handle_key_tidy (key : Z) (st : round) :
  tidy st ->
  exists r, handle_key key st = ret r /\
            match r with inr st' => tidy st' | inl _ => True end.
Proof.
  destruct st as [[x y] g info]. unfold Round.tidy, Round.handle_key. simpl.
  intros (Hx & Hy & Hlen & Hg & Hinfo).
  destruct (decide (key = _ESCAPE)); [by eexists|].
  destruct (decide (key ∈ [KEY_BACKSPACE; KEY_DC; _DEL])).
  { destruct (decide (0 < x)); [|by eexists; split; [done|]; simpl].
    rewrite setitem_int_nat by lia. simpl. eexists. split; [done|]. simpl.
    split_and!; try lia; try done.
    - rewrite length_insert. lia.
    - apply (tidy_write g (Z.to_nat (x - 1)) x _EMPTY Hg). right. lia. }
  destruct (decide (x < _length)).
  { destruct (decide (0 <= key < 1114112)); [|by eexists; split; [done|]; simpl].
    destruct (str_upper [key]) as [|c [|? ?]];
      try by (eexists; split; [done|]; simpl).
    destruct (str_isalpha [c] && bool_decide (c ∈ _letters)) eqn:Hc;
      [|by eexists; split; [done|]; simpl].
    apply andb_true_iff in Hc as [_ Hc%bool_decide_eq_true].
    rewrite setitem_int_nat by lia. simpl. eexists. split; [done|]. simpl.
    split_and!; try lia; try done.
    - rewrite length_insert. lia.
    - apply (tidy_write g (Z.to_nat x) x c Hg). left. split_and!; [lia..|done]. }
  destruct (decide (key = KEY_ENTER \/ key = 10));
    [|by eexists; split; [done|]; simpl].
  destruct (decide (g ∉ _all_words)); [by eexists; split; [done|]; simpl|].
  destruct (scored_block g info Hlen) as [Hs Hp].
  rewrite Hs. simpl. rewrite Hp. simpl.
  destruct (forallb _ _); [by eexists|].
  eexists. split; [done|]. simpl. split_and!; try lia.
  - rewrite length_replicate. lia.
  - intros i c [-> _]%lookup_replicate. by rewrite decide_False by lia.
  - apply painted_marks_only; [done | apply zip_Score_marks].
Qed.

(** The loop over any keys keeps the locals in shape and raises nothing;
    where it waits for a key, tries are left. *)
Lemma play_keys_tidy (keys : list Z) (st : round) :
  tidy st ->
  exists r, play_keys keys st = ret r /\
            match r with
            | inr st' => tidy st' /\ (position st').2 < _tries
            | inl _ => True
            end.
Proof.
  revert st. induction keys as [|key keys IH]; intros st Hst; simpl.
  - destruct (decide _); by eexists.
  - destruct (decide _); [|by eexists].
    destruct (decide (key = -1)); [by apply IH|].
    destruct (handle_key_tidy key st Hst) as ([e|st'] & -> & Hr); simpl.
    + by eexists.
    + by apply IH.
Qed.


Lemma play_keys_waiting (keys : list Z) (st st' : round) :
  play_keys keys st = ret (inr st') -> (position st').2 < _tries.
Proof.
  revert st. induction keys as [|key keys IH]; intros st; simpl.
  - destruct (decide _); [by intros [= <-] | done].
  - destruct (decide _); [|done].
    destruct (decide (key = -1)); [apply IH|].
    destruct (handle_key key st) as [e|[e|st1]]; simpl; try done. apply IH.
Qed.

(** Keys fed in two batches are keys fed at once. *)
Lemma play_keys_app (keys1 keys2 : list Z) (st : round) :
  play_keys (keys1 ++ keys2) st
  = (do r <- play_keys keys1 st ;
     match r with
     | inl e => ret (inl e)
     | inr st' => play_keys keys2 st'
     end).
Proof.
  revert st. induction keys1 as [|key keys1 IH]; intros st; simpl.
  - destruct (decide _) as [Hy|Hy]; simpl; [done|].
    destruct keys2; simpl; by rewrite decide_False.
  - destruct (decide _); [|done].
    destruct (decide (key = -1)); [apply IH|].
    destruct (handle_key key st) as [e|[e|st1]]; simpl; first [done | apply IH].
Qed.

(** Wherever the round waits for a key, Escape ends it with
    [QuitException]. *)
Theorem escape_quits (keys : list Z) (st : round) :
  _play_round keys = ret (inr st) ->
  _play_round (keys ++ [_ESCAPE]) = ret (inl QuitException).
Proof.
  unfold Round._play_round. intros Hk. rewrite play_keys_app, Hk. simpl.
  apply play_keys_waiting in Hk. by rewrite decide_True.
Qed.

(** A key that moved the cursor on by one cell entered a letter; any of
    the three delete keys (unless it is Escape) then restores the locals
    as they were. *)
Theorem delete_undoes_letter (key del : Z) (st st' : round) :
  tidy st ->
  handle_key key st = ret (inr st') ->
  (position st').1 = (position st).1 + 1 ->
  del ∈ [KEY_BACKSPACE; KEY_DC; _DEL] ->
  del <> _ESCAPE ->
  handle_key del st' = ret (inr st).
Proof.
  destruct st as [[x y] g info]. unfold Round.tidy, Round.handle_key. simpl.
  intros (Hx & Hy & Hlen & Hg & Hinfo) Hkey Hmove Hdel Hesc.
  destruct (decide (key = _ESCAPE)); [done|].
  destruct (decide (key ∈ [KEY_BACKSPACE; KEY_DC; _DEL])).
  { destruct (decide (0 < x)).
    - rewrite setitem_int_nat in Hkey by lia. simpl in Hkey.
      injection Hkey as <-. simpl in Hmove. lia.
    - injection Hkey as <-. simpl in Hmove. lia. }
  destruct (decide (x < _length)).
  2:{ destruct (decide (key = KEY_ENTER \/ key = 10)).
      - destruct (decide (g ∉ _all_words)).
        + injection Hkey as <-. simpl in Hmove. lia.
        + destruct (scored_block g info Hlen) as [Hs Hp].
          rewrite Hs in Hkey. simpl in Hkey. rewrite Hp in Hkey.
          simpl in Hkey. destruct (forallb _ _); [done|].
          injection Hkey as <-. simpl in Hmove. lia.
      - injection Hkey as <-. simpl in Hmove. lia. }
  assert (Hcell : g !! Z.to_nat x = Some _EMPTY).
  { destruct (lookup_lt_is_Some_2 g (Z.to_nat x)) as [d Hd]; [lia|].
    specialize (Hg _ _ Hd). rewrite decide_False in Hg by lia. by subst. }
  destruct (decide (0 <= key < 1114112));
    [|injection Hkey as <-; simpl in Hmove; lia].
  destruct (str_upper [key]) as [|c [|? ?]];
    try (injection Hkey as <-; simpl in Hmove; lia).
  destruct (str_isalpha [c] && bool_decide (c ∈ _letters));
    [|injection Hkey as <-; simpl in Hmove; lia].
  rewrite setitem_int_nat in Hkey by lia. simpl in Hkey.
  injection Hkey as <-. simpl.
  rewrite decide_False, decide_True, decide_True by (done || lia).
  rewrite setitem_int_nat by (rewrite length_insert; lia). simpl.
  replace (x + 1 - 1) with x by lia.
  by rewrite list_insert_insert_eq, list_insert_id.
Qed.

(** A key ends the round with a win only as Enter on a full buffer that
    holds the secret. *)
Lemma handle_key_won (key : Z) (st : round) :
  tidy st ->
  handle_key key st = ret (inl (Returned true)) ->
  guess st = word /\ word ∈ _all_words /\ (key = KEY_ENTER \/ key = 10).
Proof.
  destruct st as [[x y] g info]. unfold Round.tidy, Round.handle_key. simpl.
  intros (Hx & Hy & Hlen & Hg & Hinfo) Hkey.
  destruct (decide (key = _ESCAPE)); [done|].
  destruct (decide (key ∈ [KEY_BACKSPACE; KEY_DC; _DEL])).
  { destruct (decide (0 < x)); [|done].
    by rewrite setitem_int_nat in Hkey by lia. }
  destruct (decide (x < _length)).
  { destruct (decide (0 <= key < 1114112)); [|done].
    destruct (str_upper [key]) as [|c [|? ?]]; try done.
    destruct (str_isalpha [c] && bool_decide (c ∈ _letters)); [|done].
    by rewrite setitem_int_nat in Hkey by lia. }
  destruct (decide (key = KEY_ENTER \/ key = 10)); [|done].
  destruct (decide (g ∉ _all_words)) as [|Hin]; [done|].
  destruct (scored_block g info Hlen) as [Hs Hp].
  rewrite Hs in Hkey. simpl in Hkey. rewrite Hp in Hkey. simpl in Hkey.
  destruct (forallb _ _) eqn:Hall; [|done].
  apply Score_all_Exact in Hall; [|lia]. subst g.
  split_and!; [done | by apply dec_stable | done].
Qed.

Lemma handle_key_not_lost (key : Z) (st : round) :
  tidy st -> handle_key key st <> ret (inl (Returned false)).
Proof.
  destruct st as [[x y] g info]. unfold Round.tidy, Round.handle_key. simpl.
  intros (Hx & Hy & Hlen & Hg & Hinfo) Hkey.
  destruct (decide (key = _ESCAPE)); [done|].
  destruct (decide (key ∈ [KEY_BACKSPACE; KEY_DC; _DEL])).
  { destruct (decide (0 < x)); [|done].
    by rewrite setitem_int_nat in Hkey by lia. }
  destruct (decide (x < _length)).
  { destruct (decide (0 <= key < 1114112)); [|done].
    destruct (str_upper [key]) as [|c [|? ?]]; try done.
    destruct (str_isalpha [c] && bool_decide (c ∈ _letters)); [|done].
    by rewrite setitem_int_nat in Hkey by lia. }
  destruct (decide (key = KEY_ENTER \/ key = 10)); [|done].
  destruct (decide (g ∉ _all_words)) as [|Hin]; [done|].
  destruct (scored_block g info Hlen) as [Hs Hp].
  rewrite Hs in Hkey. simpl in Hkey. rewrite Hp in Hkey. simpl in Hkey.
  by destruct (forallb _ _).
Qed.

Lemma play_keys_won (keys : list Z) (st : round) :
  tidy st ->
  play_keys keys st = ret (inl (Returned true)) ->
  exists (before after : list Z) (key : Z) (st' : round),
    keys = before ++ key :: after /\
    play_keys before st = ret (inr st') /\
    guess st' = word /\ word ∈ _all_words /\
    (key = KEY_ENTER \/ key = 10).
Proof.
  revert st. induction keys as [|key keys IH]; intros st Hst; simpl.
  - by destruct (decide _).
  - destruct (decide _) as [Hy|Hy]; [|done].
    destruct (decide (key = -1)) as [->|Hk].
    + intros (before & after & k & st' & -> & Hrun & Hrest)%IH; [|done].
      exists (-1 :: before), after, k, st'. split; [done|]. simpl.
      by rewrite decide_True.
    + destruct (handle_key_tidy key st Hst) as ([e|st1] & Hh & Ht).
      * rewrite Hh. simpl. intros [= ->].
        apply handle_key_won in Hh as (? & ? & ?); [|done].
        exists [], keys, key, st. simpl. by rewrite decide_True.
      * rewrite Hh. simpl.
        intros (before & after & k & st' & -> & Hrun & Hrest)%IH; [|done].
        exists (key :: before), after, k, st'. split; [done|]. simpl.
        rewrite decide_True, decide_False by done. by rewrite Hh.
Qed.

(** A round returns [True] only when Enter is pressed on a buffer that
    holds the secret, and the secret is then a known word. *)
Theorem round_won_by_secret (keys : list Z) :
  _play_round keys = ret (inl (Returned true)) ->
  exists (before after : list Z) (key : Z) (st : round),
    keys = before ++ key :: after /\
    _play_round before = ret (inr st) /\
    guess st = word /\ word ∈ _all_words /\
    (key = KEY_ENTER \/ key = 10).
Proof. apply play_keys_won, tidy_opening. Qed.

(** Typing letters into the empty end of the buffer. *)
Lemma type_letters (rest done : list char) (y : Z) (info : gmap char Z) :
  Forall typable rest ->
  y < _tries ->
  Z.of_nat (length done + length rest) = _length ->
  play_keys rest (Round (Z.of_nat (length done), y)
                        (done ++ replicate (length rest) _EMPTY) info)
  = ret (inr (Round (Z.of_nat (length done + length rest), y)
                    (done ++ rest) info)).
Proof.
  revert done. induction rest as [|c rest IH]; intros done Hty Hy Hlen; simpl.
  - rewrite decide_True by done. rewrite Nat.add_0_r, !app_nil_r. done.
  - apply Forall_cons in Hty as [(Hm & Hesc & Hdel & Hrange & Hup & Hal & Hin)
                                  Hty].
    simpl in Hlen.
    rewrite (decide_True (P := y < _tries)) by done.
    rewrite (decide_False (P := c = -1)) by done.
    unfold Round.handle_key at 1. simpl.
    rewrite (decide_False (P := c = _ESCAPE)) by done.
    rewrite (decide_False (P := c ∈ [KEY_BACKSPACE; KEY_DC; _DEL])) by done.
    rewrite (decide_True (P := Z.of_nat (length done) < _length)) by lia.
    rewrite (decide_True (P := 0 <= c < 1114112)) by done.
    rewrite Hup. simpl. unfold char in *.
    rewrite Hal, bool_decide_eq_true_2 by done. simpl.
    rewrite setitem_int_nat
      by (rewrite length_app, length_cons, length_replicate; lia).
    simpl. rewrite Nat2Z.id, insert_app_r_alt, Nat.sub_diag by lia. simpl.
    specialize (IH (done ++ [c]) Hty Hy).
    rewrite length_app in IH. simpl in IH.
    rewrite <- !(assoc_L (++)) in IH. simpl in IH.
    replace (Z.of_nat (length done) + 1)
      with (Z.of_nat (length done + 1)) by lia.
    rewrite IH by lia. do 4 f_equal. lia.
Qed.

Lemma secret_typed (Hty : Forall typable word) :
  KEY_BACKSPACE <> 10 -> KEY_DC <> 10 ->
  word ∈ _all_words ->
  0 < _tries ->
  _play_round (word ++ [10]) = ret (inl (Returned true)).
Proof.
  revert Hty.
  intros Hty Hb Hd Hknown Htries.
  unfold Round._play_round, Round.opening. rewrite play_keys_app.
  pose proof (type_letters word [] 0 ∅ Hty Htries) as Htyped.
  simpl in Htyped. change (Z.of_nat 0) with 0 in Htyped.
  replace (Z.to_nat _length) with (length word) by lia.
  rewrite Htyped by lia. simpl.
  rewrite (decide_True (P := 0 < _tries)) by done.
  unfold Round.handle_key. simpl.
  rewrite (decide_False (P := 10 ∈ [KEY_BACKSPACE; KEY_DC; _DEL])).
  2:{ rewrite !elem_of_cons, elem_of_nil. unfold _DEL. naive_solver lia. }
  rewrite (decide_False (P := Z.of_nat (length word) < _length)) by lia.
  rewrite (decide_True (P := 10 = KEY_ENTER \/ 10 = 10)) by (by right).
  rewrite (decide_False (P := word ∉ _all_words)) by (by intros H; apply H).
  destruct (scored_block word ∅ word_length) as [Hs Hp].
  rewrite Hs. simpl. rewrite Hp. simpl.
  by rewrite (proj2 (Score_all_Exact word word eq_refl) eq_refl).
Qed.


End round_facts.

(** ** Rounds played on a loaded game *)

Section round_runs.

Import Loader CPython Samples MoreSamples Round.

Ltac run :=
  match goal with
  | |- ?P => apply (bool_decide_unpack P); vm_compute; exact I
  end.


Lemma escape_quits_witness :
  tree_round ([116; 114] ++ [_ESCAPE]) = ret (inl QuitException).
Proof.
  apply (escape_quits str_upper str_isalpha 263 330 343 4 6
           (_letters cat_cats_tree_game) (_all_words cat_cats_tree_game)
           (py "TREE") [116; 114] typed_tr).
  vm_compute. reflexivity.
Defined.

Lemma delete_undoes_letter_witness :
  tree_key 127 typed_t = ret (inr (opening 4)).
Proof.
  apply (delete_undoes_letter str_upper str_isalpha 263 330 343 4
           (_letters cat_cats_tree_game) (_all_words cat_cats_tree_game)
           (py "TREE") eq_refl 116 127 (opening 4) typed_t).
  - apply (tidy_opening 4 (_letters cat_cats_tree_game) (py "TREE")).
    reflexivity.
  - vm_compute. reflexivity.
  - reflexivity.
  - run.
  - run.
Defined.

Lemma round_won_by_secret_witness :
  exists (before after : list Z) (key : Z) (st : round),
    py "TREE" ++ [10] = before ++ key :: after /\
    tree_round before = ret (inr st) /\
    guess st = py "TREE" /\
    py "TREE" ∈ _all_words cat_cats_tree_game /\
    (key = 343 \/ key = 10).
Proof.
  apply (round_won_by_secret str_upper str_isalpha 263 330 343 4 6
           (_letters cat_cats_tree_game) (_all_words cat_cats_tree_game)
           (py "TREE") eq_refl (py "TREE" ++ [10])).
  vm_compute. reflexivity.
Defined.


End round_runs.

(** ** The screen *)

Section screen_facts.

Import Screen.

#[local] Arguments Nat.min : simpl never.

Lemma slice_to_from (s : pystr) (k : Z) : slice_to s k ++ slice_from s k = s.
Proof. unfold slice_to, slice_from. destruct (decide _); apply take_drop. Qed.

(** With a screen at least one column wide, the loop ends within its fuel:
    the parts make up the message, none is empty or wider than the screen
    or than [width]. *)
Lemma wrap_parts (max_x : Z) (fuel : nat) (msg : pystr) (width : Z)
  (lines : list pystr) :
  1 <= max_x -> 0 <= width -> (length msg <= fuel)%nat ->
  exists parts : list pystr,
    wrap fuel max_x msg width lines
    = Some (width `max` Z.of_nat (length msg `min` Z.to_nat max_x),
            lines ++ parts) /\
    mjoin parts = msg /\
    Forall (fun part => 1 <= Z.of_nat (length part) <= max_x /\
                        (length part <= length msg)%nat) parts.
Proof.
  intros Hx. revert msg width lines.
  induction fuel as [|fuel IH]; intros msg width lines Hwidth Hfuel.
  - destruct msg; [|simpl in Hfuel; lia]. exists []. simpl.
    rewrite app_nil_r. split_and!; [f_equal; f_equal; lia | done | done].
  - destruct msg as [|c msg].
    { exists []. simpl. rewrite app_nil_r.
      split_and!; [f_equal; f_equal; lia | done | done]. }
    cbn [wrap]. set (m := c :: msg) in *.
    assert (Hto : slice_to m max_x = take (Z.to_nat max_x) m).
    { unfold slice_to. by rewrite decide_True by lia. }
    assert (Hfrom : slice_from m max_x = drop (Z.to_nat max_x) m).
    { unfold slice_from. by rewrite decide_True by lia. }
    assert (Hm : (1 <= length m)%nat) by (unfold m; simpl; lia).
    clearbody m.
    destruct (IH (slice_from m max_x)
                 (width `max` Z.of_nat (length (slice_to m max_x)))
                 (lines ++ [slice_to m max_x])) as (parts & -> & Hj & Hp).
    { lia. }
    { rewrite Hfrom, length_drop. lia. }
    exists (slice_to m max_x :: parts). split_and!.
    + rewrite <- (assoc_L (++)). f_equal. f_equal.
      rewrite Hto, Hfrom, length_take, length_drop. lia.
    + simpl. rewrite Hj. apply slice_to_from.
    + constructor.
      * rewrite Hto, length_take. lia.
      * eapply Forall_impl; [exact Hp|]. simpl. intros part [? ?].
        split; [done|]. rewrite Hfrom, length_drop in *. lia.
Qed.

(** With no column at all, or a negative width, the loop never ends for a
    message that is not empty. *)
Theorem message_loops_without_columns (max_x : Z) (fuel : nat)
  (msg : pystr) (width : Z) (lines : list pystr) :
  max_x <= 0 -> msg <> [] ->
  wrap fuel max_x msg width lines = None.
Proof.
  intros Hx. revert msg width lines.
  induction fuel as [|fuel IH]; intros [|c msg] width lines Hm; try done.
  cbn [wrap]. apply IH. set (m := c :: msg).
  assert (Hlen : (1 <= length m)%nat) by (unfold m; simpl; lia).
  clearbody m.
  intros Hnil. apply (f_equal length) in Hnil. revert Hnil.
  unfold slice_from. destruct (decide (0 <= max_x));
    rewrite length_drop; simpl; lia.
Qed.

Lemma message_loops_without_columns_witness :
  wrap 100 0 (py "Guess the word!") 0 [] = None.
Proof.
  apply (message_loops_without_columns 0 100 (py "Guess the word!") 0 []).
  - lia.
  - discriminate.
Defined.

(** The parts [_message] cuts a message into are the message: no
    character is lost or doubled, no part is empty, none is wider than
    the screen. *)
Theorem message_parts (max_x : Z) (msg : pystr) :
  1 <= max_x ->
  exists (width : Z) (parts : list pystr),
    wrap (length msg) max_x msg 0 [] = Some (width, parts) /\
    mjoin parts = msg /\
    Forall (fun part => 1 <= Z.of_nat (length part) <= max_x) parts /\
    width = Z.of_nat (length msg) `min` max_x.
Proof.
  intros Hx.
  destruct (wrap_parts max_x (length msg) msg 0 [] Hx (Z.le_refl 0) (le_n _))
    as (parts & Hw & Hj & Hp).
  eexists _, parts. split_and!; [exact Hw | done | | lia].
  eapply Forall_impl; [exact Hp|]. by intros part [? _].
Qed.

Lemma message_parts_witness :
  exists (width : Z) (parts : list pystr),
    wrap (length (py "Guess the word!")) 6 (py "Guess the word!") 0 []
      = Some (width, parts) /\
    mjoin parts = py "Guess the word!" /\
    Forall (fun part => 1 <= Z.of_nat (length part) <= 6) parts /\
    width = Z.of_nat (length (py "Guess the word!")) `min` 6.
Proof. apply (message_parts 6 (py "Guess the word!")). lia. Defined.

(** The padding of a line: both pads together leave one column free when
    there is room, and the line sits in the middle. *)
Lemma pads (max_x width : Z) :
  0 <= width <= max_x ->
  let pad := max_x - width in
  let left_pad := pad `div` 2 in
  let right_pad := 0 `max` (pad - left_pad - 1) in
  0 <= left_pad /\ 0 <= right_pad /\
  left_pad + width + right_pad <= max_x /\
  (width < max_x ->
   left_pad + width + right_pad = max_x - 1 /\
   right_pad <= left_pad <= right_pad + 1).
Proof.
  intros Hw pad left_pad right_pad. unfold right_pad, left_pad, pad.
  pose proof (Z.div_mod (max_x - width) 2).
  pose proof (Z.mod_pos_bound (max_x - width) 2). lia.
Qed.

(** With a screen at least one column wide, [_message] returns; it draws
    its rows one under the other from the message offset, each from
    column 0 and no wider than the screen, and at least the rows of the
    message block. *)
Theorem message_fits (max_x max_y tries : Z) (msg : pystr) :
  1 <= max_x ->
  exists draws : list addstr,
    _message max_x max_y tries msg = Some draws /\
    (max_y - (_BOARD_TOP + tries + _MESSAGE_OFFSET)) `min` 4
      <= Z.of_nat (length draws) /\
    forall (i : nat) (d : addstr), draws !! i = Some d ->
      row d = _BOARD_TOP + tries + _MESSAGE_OFFSET + Z.of_nat i /\
      col d = 0 /\
      Z.of_nat (length (text d)) <= max_x /\
      pair d = _MESSAGE_PAIR.
Proof.
  intros Hx. unfold _message.
  destruct (wrap_parts max_x (length msg) msg 0 [] Hx (Z.le_refl 0) (le_n _))
    as (parts & -> & Hj & Hp).
  simpl. eexists. split; [done|]. split.
  - rewrite length_imap, length_app, length_replicate. lia.
  - intros i d (line & Hline & ->)%list_lookup_imap_Some. simpl.
    split_and!; try done.
    assert (Hlen : (length line <= length msg `min` Z.to_nat max_x)%nat).
    { apply lookup_app_Some in Hline as [Hline | [_ Hline]].
      - rewrite Forall_forall in Hp.
        apply list_elem_of_lookup_2, Hp in Hline. lia.
      - apply lookup_replicate in Hline as [-> _]. simpl. lia. }
    set (width := 0 `max` Z.of_nat (length msg `min` Z.to_nat max_x)) in *.
    destruct (pads max_x width) as (Hl & Hr & Hfit & _); [lia|].
    unfold times. rewrite !length_app, !length_replicate. lia.
Qed.

Lemma message_fits_witness :
  exists draws : list addstr,
    _message 6 24 6 (py "Guess the word!") = Some draws /\
    (24 - (_BOARD_TOP + 6 + _MESSAGE_OFFSET)) `min` 4
      <= Z.of_nat (length draws) /\
    forall (i : nat) (d : addstr), draws !! i = Some d ->
      row d = _BOARD_TOP + 6 + _MESSAGE_OFFSET + Z.of_nat i /\
      col d = 0 /\
      Z.of_nat (length (text d)) <= 6 /\
      pair d = _MESSAGE_PAIR.
Proof. apply (message_fits 6 24 6 (py "Guess the word!")). lia. Defined.

(** A message shorter than the screen is wide is drawn on the first row
    of the block, in the middle: blanks, the message, blanks, one column
    short of the screen, the left blanks at most one more than the
    right. *)
Theorem message_centred (max_x max_y tries : Z) (msg : pystr) :
  msg <> [] -> Z.of_nat (length msg) < max_x ->
  exists (l r : nat) (more : list addstr),
    _message max_x max_y tries msg
    = Some (Addstr (_BOARD_TOP + tries + _MESSAGE_OFFSET) 0
                   (replicate l 32 ++ msg ++ replicate r 32) _MESSAGE_PAIR
            :: more) /\
    Z.of_nat l + Z.of_nat (length msg) + Z.of_nat r = max_x - 1 /\
    (r <= l <= r + 1)%nat.
Proof.
  intros Hne Hlen. unfold _message.
  destruct msg as [|c msg]; [done|]. set (m := c :: msg) in *.
  assert (Hm : (1 <= length m)%nat) by (unfold m; simpl; lia).
  assert (Hw : wrap (length m) max_x m 0 []
               = Some (0 `max` Z.of_nat (length m), [m])).
  { unfold m at 1 2. cbn [length wrap]. fold m.
    unfold slice_to, slice_from. rewrite !decide_True by lia.
    rewrite take_ge, drop_ge by lia. by destruct (length msg). }
  rewrite Hw. clearbody m. simpl.
  destruct (pads max_x (0 `max` Z.of_nat (length m)))
    as (Hl & Hr & _ & Hmid); [lia|].
  destruct Hmid as [Hsum Hbal]; [lia|].
  eexists (Z.to_nat _), (Z.to_nat _), _. split_and!.
  - unfold times. rewrite Z.add_0_r. reflexivity.
  - lia.
  - lia.
  - lia.
Qed.

Lemma message_centred_witness :
  exists (l r : nat) (more : list addstr),
    _message 80 24 6 (py "Guess the word!")
    = Some (Addstr (_BOARD_TOP + 6 + _MESSAGE_OFFSET) 0
                   (replicate l 32 ++ py "Guess the word!" ++ replicate r 32)
                   _MESSAGE_PAIR
            :: more) /\
    Z.of_nat l + Z.of_nat (length (py "Guess the word!")) + Z.of_nat r
      = 80 - 1 /\
    (r <= l <= r + 1)%nat.
Proof.
  apply (message_centred 80 24 6 (py "Guess the word!")).
  - discriminate.
  - reflexivity.
Defined.

(** The empty message blanks the block: as many rows as the block has,
    each all blanks, one column short of the screen. *)
Theorem message_blank (max_x max_y tries : Z) :
  exists draws : list addstr,
    _message max_x max_y tries [] = Some draws /\
    Z.of_nat (length draws)
      = 0 `max` ((max_y - (_BOARD_TOP + tries + _MESSAGE_OFFSET)) `min` 4) /\
    Forall (fun d => text d = replicate (Z.to_nat (max_x - 1)) 32) draws.
Proof.
  unfold _message. simpl. eexists. split; [done|]. split.
  - rewrite length_imap, length_replicate. lia.
  - apply Forall_forall.
    intros d (i & line & -> & [-> _]%lookup_replicate)%elem_of_lookup_imap.
    simpl. unfold times. rewrite <- replicate_add. f_equal.
    rewrite Z.sub_0_r.
    pose proof (Z.div_mod max_x 2). pose proof (Z.mod_pos_bound max_x 2).
    lia.
Qed.

(** A character of the board (column [x] of try [y]) is drawn strictly
    inside the frame, on a cell that no call of the title or the outline
    writes: the board never paints over its frame. *)
Theorem board_char_inside_frame (max_x _length _tries x y : Z)
  (character : pystr) (p : Z) (d f : addstr) :
  0 <= x < _length -> 0 <= y < _tries ->
  d ∈ _set_board_char max_x _length x y character p ->
  (f ∈ draw_board_frame max_x _length _tries -> ~ covers f (row d) (col d)) /\
  _BOARD_TOP - 1 < row d < _BOARD_TOP + _tries /\
  max_x `div` 2 - _length - 1 < col d
    < max_x `div` 2 - _length - 1 + 2 * _length.
Proof.
  intros Hx Hy. unfold _set_board_char.
  destruct (decide (length character = 1%nat)); [|by intros ?%elem_of_nil].
  intros ->%list_elem_of_singleton. simpl. split; [|lia].
  unfold draw_board_frame, covers, _BOARD_TOP.
  rewrite !elem_of_app, !elem_of_cons, elem_of_nil.
  intros [[-> | [-> | [-> | []]]] | [Hbar | [-> | []]]]; simpl; try lia.
  apply list_elem_of_bind in Hbar as (i & Hbar & _).
  apply list_elem_of_bind in Hbar as (j & ->%list_elem_of_singleton & _).
  simpl. lia.
Qed.

Lemma board_char_inside_frame_witness :
  (Addstr 4 34 ([47] ++ times 45 9 ++ [92]) _BOARD_PAIR
     ∈ draw_board_frame 80 5 6 ->
   ~ covers (Addstr 4 34 ([47] ++ times 45 9 ++ [92]) _BOARD_PAIR)
       (row (Addstr 7 39 [84] _GUESS_PAIR))
       (col (Addstr 7 39 [84] _GUESS_PAIR))) /\
  _BOARD_TOP - 1 < row (Addstr 7 39 [84] _GUESS_PAIR) < _BOARD_TOP + 6 /\
  80 `div` 2 - 5 - 1 < col (Addstr 7 39 [84] _GUESS_PAIR)
    < 80 `div` 2 - 5 - 1 + 2 * 5.
Proof.
  apply (board_char_inside_frame 80 5 6 2 2 [84] _GUESS_PAIR).
  - lia.
  - lia.
  - vm_compute. left.
Defined.

End screen_facts.

(** ** From the word file to a won round *)

Section loaded_round.

Import Loader CPython Round.

Lemma str_isalpha_capital (c : char) :
  65 <= c <= 90 -> str_isalpha [c] = true.
Proof.
  intros Hc. unfold str_isalpha, alpha_char, between. simpl.
  destruct (Z.leb_spec 65 c); [|lia]. destruct (Z.leb_spec c 90); [|lia].
  done.
Qed.



End loaded_round.
